(** * FactoryContainer: a shallow embedding of [FactoryContainer.hpp]

    The container maps an interface identity ([std::type_index]) to a
    factory (a [std::function] from a [type_list] pointer to a
    [std::shared_ptr<void>]) and resolves an interface by running its factory,
    which in turn resolves the declared dependencies through the same
    container.

    The embedding threads one machine state through the private overload of
    [Resolve]: the registry, the ancestor list, the allocator, and a log of
    what happened, so that what a resolve does, and in which order, can be
    stated and proved.  A call ends in a value or in a C++ exception.

    Two things the header leaves to its environment are parameters here:
    - the order in which the compiler evaluates the arguments of a call, which
      C++ does not fix;
    - the constructors of the registered classes, of which only the outcome
      matters: given the handles it receives, a constructor completes or
      throws.  Constructors do not call back into the container.

    Interfaces, classes and objects are numbered.  An object is identified by
    its allocation number, so two objects are never confused even if one
    lives where another used to. *)

From stdpp Require Import base relations gmap list.

(** ** Data model *)

(** [std::type_index(typeid(I))]: the runtime identity of an interface. *)
Abbreviation type_index := nat (only parsing).
(** The concrete implementation [T] named at a [RegisterType<I, T, ...>]. *)
Abbreviation class_id := nat (only parsing).
(** The identity of an object owned by a [std::shared_ptr]: its allocation
    number. *)
Abbreviation address := nat (only parsing).
(** [std::shared_ptr<void>]: [None] is [nullptr], [Some a] owns the object at
    [a].  Two handles are identity-equal when they are equal here. *)
Abbreviation shared_ptr := (option address) (only parsing).
(** What a throwing constructor throws. *)
Abbreviation exn := nat (only parsing).
(** [typedef std::vector<std::type_index> type_list]. *)
Abbreviation type_list := (list type_index) (only parsing).

(** [factory_value]: [RegisterFactory] is private, so the only closures ever
    stored are the two lambdas of [RegisterType] (capturing [this], and
    standing for [T] and the pack [Arguments...]) and of [RegisterInstance]
    (capturing [pInstance] by value). *)
Inductive factory_value : Type :=
  | type_factory (T : class_id) (Arguments : list type_index)
  | instance_factory (pInstance : shared_ptr).

(** Observable steps of a resolve, in the order they happen.  [EvCall] and
    [EvReturn] bracket one activation of the private [Resolve<I>] and carry
    the contents of the ancestor list at that moment; [EvConstruct] is one
    [std::make_shared<T>(args...)], which either yields the new object or
    lets the constructor's exception through. *)
Inductive event : Type :=
  | EvCall (key : type_index) (ancestors : type_list)
  | EvReturn (key : type_index) (ancestors : type_list) (p : shared_ptr)
  | EvConstruct (T : class_id) (args : list shared_ptr) (r : exn + address).

(** Everything a running resolve can read or write: the container's
    [m_factoryList] (reached through the captured [this]), the vector behind
    the [type_list] pointer, the number the allocator hands out next, and the
    log. *)
Record machine : Type := Machine {
  m_factoryList : gmap nat factory_value;
  ancestor_list : list nat;
  heap_top : nat;
  trace : list event
}.

(** How a call leaves: by [return], by a C++ exception, or (in the model only)
    because the recursion budget ran out. *)
Inductive outcome (A : Type) : Type :=
  | Ret (a : A)
  | Throw (e : exn)
  | OutOfFuel.
Arguments Ret {A} a.
Arguments Throw {A} e.
Arguments OutOfFuel {A}.

Definition M (A : Type) : Type := machine → outcome A * machine.

Definition ret {A : Type} (a : A) : M A := λ s, (Ret a, s).

(** Sequencing: an exception (or exhaustion) skips the rest, and the machine
    stays as it was at the point of the throw. *)
Definition bind {A B : Type} (c : M A) (k : A → M B) : M B :=
  λ s, match c s with
       | (Ret a, s') => k a s'
       | (Throw e, s') => (Throw e, s')
       | (OutOfFuel, s') => (OutOfFuel, s')
       end.

Notation "'let*' x := c 'in' k" := (bind c (λ x, k))
  (at level 10, x name, c at level 100, k at level 200).

(** The three writes a resolve performs on the machine. *)
Definition logged (ev : event) (s : machine) : machine :=
  Machine (m_factoryList s) (ancestor_list s) (heap_top s) (trace s ++ [ev]).

Definition pushed (key : type_index) (s : machine) : machine :=
  Machine (m_factoryList s) (ancestor_list s ++ [key]) (heap_top s) (trace s).

Definition popped (s : machine) : machine :=
  Machine (m_factoryList s) (removelast (ancestor_list s)) (heap_top s) (trace s).

Definition log (ev : event) : M unit := λ s, (Ret (), logged ev s).

(** [ancestor_list->push_back(key)] *)
Definition push_back (key : type_index) : M unit := λ s, (Ret (), pushed key s).

(** [ancestor_list->pop_back()] *)
Definition pop_back : M unit := λ s, (Ret (), popped s).

(** [m_factoryList.find(key)] *)
Definition find (key : type_index) : M (option factory_value) :=
  λ s, (Ret (m_factoryList s !! key), s).

Definition get_ancestors : M type_list := λ s, (Ret (ancestor_list s), s).

(** ** Registry operations *)

(** [Unregister<I>()], with [key] the identity of [I]: [find], and [erase]
    when found. *)
Definition Unregister (key : type_index) (c : gmap nat factory_value) : gmap nat factory_value :=
  match c !! key with
  | Some _ => delete key c
  | None => c
  end.

(** [RegisterFactory<I>(tFactory)]: [Unregister<I>()], then
    [m_factoryList[key] = tFactory]. *)
Definition RegisterFactory (key : type_index) (tFactory : factory_value)
    (c : gmap nat factory_value) : gmap nat factory_value :=
  <[key := tFactory]> (Unregister key c).

(** [RegisterType<I, T, Arguments...>()].  The [static_assert] that [T]
    derives from [I] is a compile-time matter and has no run-time trace. *)
Definition RegisterType (key : type_index) (T : class_id) (Arguments : list type_index)
    (c : gmap nat factory_value) : gmap nat factory_value :=
  RegisterFactory key (type_factory T Arguments) c.

(** [RegisterInstance<I>(pInstance)] *)
Definition RegisterInstance (key : type_index) (pInstance : shared_ptr)
    (c : gmap nat factory_value) : gmap nat factory_value :=
  RegisterFactory key (instance_factory pInstance) c.

(** A registry operation as data, to speak about histories of calls. *)
Inductive registry_op : Type :=
  | OpRegisterType (key : type_index) (T : class_id) (Arguments : list type_index)
  | OpRegisterInstance (key : type_index) (pInstance : shared_ptr)
  | OpUnregister (key : type_index).

Definition run_op (o : registry_op) (c : gmap nat factory_value) : gmap nat factory_value :=
  match o with
  | OpRegisterType key T Arguments => RegisterType key T Arguments c
  | OpRegisterInstance key p => RegisterInstance key p c
  | OpUnregister key => Unregister key c
  end.

(** The container after a history of calls, oldest first, starting from the
    empty container that the constructor builds. *)
Definition run_ops (ops : list registry_op) : gmap nat factory_value :=
  foldl (λ c o, run_op o c) ∅ ops.

Definition op_target (o : registry_op) : type_index :=
  match o with
  | OpRegisterType key _ _ => key
  | OpRegisterInstance key _ => key
  | OpUnregister key => key
  end.

(** ** The resolver *)

Section Resolver.

(** The order in which the compiler evaluates the arguments of an [n]-ary
    call, as the list of argument positions in evaluation order.  C++ leaves
    it unspecified for [make_shared<T>(Resolve<Arguments>(...)...)]; the calls
    do not overlap. *)
Variable arg_order : nat → list nat.

(** The constructor of class [T] applied to its argument handles: [None] when
    it completes, [Some e] when it throws [e]. *)
Variable ctor : class_id → list shared_ptr → option exn.

(** [std::make_shared<T>(args...)] once the arguments are values. *)
Definition make_shared (T : class_id) (args : list shared_ptr) : M shared_ptr :=
  λ s, match ctor T args with
       | Some e =>
           (Throw e, Machine (m_factoryList s) (ancestor_list s) (heap_top s)
                             (trace s ++ [EvConstruct T args (inl e)]))
       | None =>
           (Ret (Some (heap_top s)),
            Machine (m_factoryList s) (ancestor_list s) (S (heap_top s))
                    (trace s ++ [EvConstruct T args (inr (heap_top s))]))
       end.

(** The expansion [this->Resolve<Arguments>(ancestor_list)...]: the positions
    [idxs] are evaluated one after the other, each result landing in its own
    slot of the argument list.  A position outside the pack, which no
    evaluation order names, is passed over. *)
Fixpoint eval_arguments (resolve : type_index → M shared_ptr) (Arguments : list type_index)
    (idxs : list nat) (slots : list shared_ptr) : M (list shared_ptr) :=
  match idxs with
  | [] => ret slots
  | i :: idxs' =>
      match Arguments !! i with
      | None => eval_arguments resolve Arguments idxs' slots
      | Some D =>
          let* p := resolve D in
          eval_arguments resolve Arguments idxs' (<[i := p]> slots)
      end
  end.

(** [it->second(ancestor_list)]: running a stored factory. *)
Definition invoke (resolve : type_index → M shared_ptr) (f : factory_value) : M shared_ptr :=
  match f with
  | type_factory T Arguments =>
      let* args := eval_arguments resolve Arguments (arg_order (length Arguments))
                (replicate (length Arguments) None) in
      make_shared T args
  | instance_factory pInstance => ret pInstance
  end.

(** The private [Resolve<I>], which takes the [ancestor_list] pointer.  [fuel]
    bounds the nesting of activations.  When the factory throws, control
    leaves between [push_back] and [pop_back]: nothing catches the exception
    and no destructor pops.  The final [static_pointer_cast<I>] keeps the
    object. *)
Fixpoint Resolve_in (fuel : nat) (key : type_index) : M shared_ptr :=
  match fuel with
  | 0 => λ s, (OutOfFuel, s)
  | S fuel' =>
      let* al := get_ancestors in
      let* _ := log (EvCall key al) in
      let* it := find key in
      match it with
      | None =>
          let* _ := log (EvReturn key al None) in ret None
      | Some it_second =>
          if bool_decide (key ∈ al) then
            let* _ := log (EvReturn key al None) in ret None
          else
            let* _ := push_back key in
            let* pObj := invoke (Resolve_in fuel') it_second in
            let* _ := pop_back in
            let* al' := get_ancestors in
            let* _ := log (EvReturn key al' pObj) in
            ret pObj
      end
  end.

(** The public [Resolve<I>()]: a fresh local [ancestor_list], then the private
    overload.  [heap] is where the allocator stands at the call.  The machine
    that is returned shows the local list as it is when control leaves. *)
Definition Resolve (key : type_index) (c : gmap nat factory_value) (heap : nat)
    : outcome shared_ptr * machine :=
  Resolve_in (S (size c)) key (Machine c [] heap []).

End Resolver.

(** Two evaluation orders that compilers use. *)
Definition left_to_right (n : nat) : list nat := seq 0 n.
Definition right_to_left (n : nat) : list nat := reverse (seq 0 n).

(** ** Reading a trace *)

(** A call or return logged under ancestor list [st] or under an extension of
    it; constructions are not tied to a list. *)
Definition below (st : list nat) (ev : event) : Prop :=
  match ev with
  | EvCall _ al | EvReturn _ al _ => st `prefix_of` al
  | EvConstruct _ _ _ => True
  end.

(** The interfaces whose resolve was entered with ancestor list [st], in the
    order of the calls. *)
Definition calls_at (st : list nat) (tr : list event) : list nat :=
  omap (λ ev, match ev with
              | EvCall key al => if decide (al = st) then Some key else None
              | _ => None
              end) tr.

(** The (interface, handle) pairs of the resolves that returned with ancestor
    list [st], in the order of the returns. *)
Definition returns_at (st : list nat) (tr : list event) : list (nat * option nat) :=
  omap (λ ev, match ev with
              | EvReturn key al p => if decide (al = st) then Some (key, p) else None
              | _ => None
              end) tr.

(** ** What one activation leaves behind *)

(** The contract of one activation of the private [Resolve<I>] entered on
    machine [s] and left with outcome [o] on machine [s']: the registry is as
    before, the allocator only advances, and the trace gains the bracket of
    this activation around events that all belong to deeper activations.  A
    normal return has popped what it pushed; an exception leaves [key], and
    whatever was pushed above it, on the list. *)
Definition resolve_post (key : nat) (s : machine) (o : outcome (option nat))
    (s' : machine) : Prop :=
  m_factoryList s' = m_factoryList s ∧ heap_top s ≤ heap_top s' ∧
  match o with
  | Ret p =>
      ancestor_list s' = ancestor_list s ∧
      ∃ body, trace s' = trace s ++ EvCall key (ancestor_list s) :: body
                           ++ [EvReturn key (ancestor_list s) p] ∧
              Forall (below (ancestor_list s ++ [key])) body
  | Throw e =>
      (∃ rest, ancestor_list s' = ancestor_list s ++ key :: rest) ∧
      ∃ tr, trace s' = trace s ++ EvCall key (ancestor_list s) :: tr ∧
            Forall (below (ancestor_list s ++ [key])) tr
  | OutOfFuel =>
      ∃ tr, trace s' = trace s ++ tr ∧ Forall (below (ancestor_list s)) tr
  end.

(** The same for the evaluation of an argument pack. *)
Definition args_post (s : machine) (o : outcome (list (option nat)))
    (s' : machine) : Prop :=
  m_factoryList s' = m_factoryList s ∧ heap_top s ≤ heap_top s' ∧
  (∃ tr, trace s' = trace s ++ tr ∧ Forall (below (ancestor_list s)) tr) ∧
  match o with
  | Ret _ => ancestor_list s' = ancestor_list s
  | Throw _ => ∃ D rest, ancestor_list s' = ancestor_list s ++ D :: rest
  | OutOfFuel => True
  end.

(** The registered interfaces that are not on the ancestor list: the ones a
    deeper activation can still push. *)
Definition remaining (c : gmap nat factory_value) (al : list nat) : nat :=
  size (dom c ∖ list_to_set al).

(** ** Well-formed events *)

(** An ancestor list as a resolve can see it: no interface twice, and only
    interfaces bound to a type (an instance factory never calls back). *)
Definition stack_ok (c : gmap nat factory_value) (al : list nat) : Prop :=
  NoDup al ∧ Forall (λ k, ∃ T deps, c !! k = Some (type_factory T deps)) al.

(** The events a resolve on container [c] can log, by the path through the
    private [Resolve<I>] that logs them. *)
Inductive event_ok (c : gmap nat factory_value) : event → Prop :=
  | ok_call key al :
      stack_ok c al → event_ok c (EvCall key al)
  | ok_return_unregistered key al :
      stack_ok c al → c !! key = None → event_ok c (EvReturn key al None)
  | ok_return_cycle key al :
      stack_ok c al → key ∈ al → event_ok c (EvReturn key al None)
  | ok_return_instance key al pInstance :
      stack_ok c al → key ∉ al → c !! key = Some (instance_factory pInstance) →
      event_ok c (EvReturn key al pInstance)
  | ok_return_type key al T deps a :
      stack_ok c al → key ∉ al → c !! key = Some (type_factory T deps) →
      event_ok c (EvReturn key al (Some a))
  | ok_construct key T deps args r :
      c !! key = Some (type_factory T deps) → length args = length deps →
      event_ok c (EvConstruct T args r).

(** Why a resolve of [D] under ancestor list [st] comes back with the absent
    marker: nothing registered, [D] already being resolved, or an instance
    registration of a null handle. *)
Definition absent_here (c : gmap nat factory_value) (st : list nat) (D : nat) : Prop :=
  c !! D = None ∨ D ∈ st ∨ c !! D = Some (instance_factory None).

(** The exception [e] left a constructor: the log ends with that throw. *)
Definition thrown_by_constructor (ctor : nat → list (option nat) → option nat)
    (e : nat) (tr : list event) : Prop :=
  ∃ tr0 T args, tr = tr0 ++ [EvConstruct T args (inl e)] ∧ ctor T args = Some e.

(** ** Evaluation orders, dependency cycles, histories *)

(** An evaluation order the language allows: every argument position of an
    [n]-ary call is evaluated once. *)
Definition valid_order (arg_order : nat → list nat) : Prop :=
  ∀ n, arg_order n ≡ₚ seq 0 n.

(** [depends_on c k d]: [k] is bound to a type whose declared dependencies
    include [d]. *)
Definition depends_on (c : gmap nat factory_value) (k d : nat) : Prop :=
  ∃ T deps, c !! k = Some (type_factory T deps) ∧ d ∈ deps.

(** [key] lies on a dependency cycle [key → … → key] of type bindings. *)
Definition on_cycle (c : gmap nat factory_value) (key : nat) : Prop :=
  tc (depends_on c) key key.

(** The cycle guard fired: some interface bound to a type was asked for while
    it was on the ancestor list, and that resolve returned the absent
    marker. *)
Definition guard_fired (c : gmap nat factory_value) (tr : list event) : Prop :=
  ∃ g al T deps, g ∈ al ∧ c !! g = Some (type_factory T deps) ∧ EvReturn g al None ∈ tr.

(** The last operation of a history that names [key], if any. *)
Definition last_touch (key : nat) (ops : list registry_op) : option registry_op :=
  last (filter (λ o, op_target o = key) ops).

(** The factory an operation leaves under the interface it names. *)
Definition op_factory (o : registry_op) : option factory_value :=
  match o with
  | OpRegisterType _ T Arguments => Some (type_factory T Arguments)
  | OpRegisterInstance _ pInstance => Some (instance_factory pInstance)
  | OpUnregister _ => None
  end.

(** The ancestor list recorded in an event is duplicate free, made of
    registered interfaces, and no longer than the registry. *)
Definition stack_bounded (c : gmap nat factory_value) (ev : event) : Prop :=
  match ev with
  | EvCall _ al | EvReturn _ al _ =>
      NoDup al ∧ (∀ k, k ∈ al → is_Some (c !! k)) ∧ length al ≤ size c
  | EvConstruct _ _ _ => True
  end.

(** What a top-level resolve of [key], bound to type [T], can end in when the
    allocator stood at [heap] at the call: a handle to an object of class [T]
    constructed as the last step of this very call, or the exception of a
    constructor.  It never ends in the absent marker. *)
Definition fresh_or_thrown (ctor : nat → list (option nat) → option nat)
    (key T : nat) (heap : nat) (o : outcome (option nat)) (s' : machine) : Prop :=
  match o with
  | Ret p =>
      ∃ tr args a, p = Some a ∧ heap ≤ a < heap_top s' ∧
        trace s' = tr ++ [EvConstruct T args (inr a); EvReturn key [] (Some a)]
  | Throw e => thrown_by_constructor ctor e (trace s')
  | OutOfFuel => False
  end.

(** ** Sample constructors and containers *)

(** Constructors that never throw. *)
Definition ctor_nothrow (T : class_id) (args : list (option nat)) : option nat := None.

(** Constructors that always throw the exception [7]. *)
Definition ctor_throws (T : class_id) (args : list (option nat)) : option nat := Some 7.

(** Constructors that reject an absent handle by throwing the exception [1]. *)
Definition ctor_strict (T : class_id) (args : list (option nat)) : option nat :=
  if bool_decide (None ∈ args) then Some 1 else None.

(** Interfaces [IA], [IB], [IC] and implementations [TA], [TB], [TC]. *)
Definition IA : nat := 0.
Definition IB : nat := 1.
Definition IC : nat := 2.
Definition TA : nat := 10.
Definition TB : nat := 11.
Definition TC : nat := 12.

(** [RegisterType<IA, TA>()] on a new container. *)
Definition leaf : gmap nat factory_value := RegisterType IA TA [] ∅.

(** [RegisterType<IA, TA, IA>()]: the direct cycle. *)
Definition self_cycle : gmap nat factory_value := RegisterType IA TA [IA] ∅.

(** [RegisterType<IA, TA, IB>(); RegisterType<IB, TB, IA>()]: the indirect
    cycle. *)
Definition two_cycle : gmap nat factory_value :=
  RegisterType IB TB [IA] (RegisterType IA TA [IB] ∅).

(** [TA] takes an [IB] and an [IC], both bound to types without dependencies. *)
Definition fan : gmap nat factory_value :=
  RegisterType IC TC [] (RegisterType IB TB [] (RegisterType IA TA [IB; IC] ∅)).

(** [TA] takes an [IB] that nobody registered. *)
Definition dangling : gmap nat factory_value := RegisterType IA TA [IB] ∅.

(** [TA] takes an [IB], and [IB] is bound to the instance numbered [100]. *)
Definition shared_dep : gmap nat factory_value :=
  RegisterInstance IB (Some 100) (RegisterType IA TA [IB] ∅).

(** [RegisterType<IA, TA, IB>(); RegisterType<IB, TB>()]: a two-level graph. *)
Definition two_level : gmap nat factory_value :=
  RegisterType IB TB [] (RegisterType IA TA [IB] ∅).

(** A machine about to run a top-level resolve on container [c]. *)
Definition fresh_machine (c : gmap nat factory_value) (heap : nat) : machine :=
  Machine c [] heap [].

(** ** Further notions: complete graphs, allocation, dependency chains *)

(** [buildable c n key]: [key] can be assembled in full within [n] levels: it
    is bound to a non-null instance, or to a type all of whose declared
    dependencies can be assembled within [n - 1] levels. *)
Fixpoint buildable (c : gmap nat factory_value) (n : nat) (key : nat) : bool :=
  match n with
  | 0 => false
  | S n' =>
      match c !! key with
      | Some (type_factory _ deps) => forallb (buildable c n') deps
      | Some (instance_factory (Some _)) => true
      | _ => false
      end
  end.

(** No absent marker in an event: none returned, none handed to a
    constructor. *)
Definition no_absent (ev : event) : Prop :=
  match ev with
  | EvCall _ _ => True
  | EvReturn _ _ p => p ≠ None
  | EvConstruct _ args _ => None ∉ args
  end.

(** The objects that the constructions of a trace yielded, oldest first. *)
Definition constructed (tr : list event) : list nat :=
  omap (λ ev, match ev with
              | EvConstruct _ _ (inr a) => Some a
              | _ => None
              end) tr.

(** A list of interfaces each of which declares the next as a dependency. *)
Inductive chain (c : gmap nat factory_value) : list nat → Prop :=
  | chain_nil : chain c []
  | chain_one k : chain c [k]
  | chain_cons k d l : depends_on c k d → chain c (d :: l) → chain c (k :: d :: l).

(** The ancestor list of a call or return, followed by the interface asked
    for, is a chain of dependencies. *)
Definition chained (c : gmap nat factory_value) (ev : event) : Prop :=
  match ev with
  | EvCall key al | EvReturn key al _ => chain c (al ++ [key])
  | EvConstruct _ _ _ => True
  end.

(** On the way from [k] to [target] an absent handle reached a constructor:
    some interface [k'] between them, bound to a type, was constructed on an
    argument list that holds the absent marker at the position of a
    dependency [d] leading on to [target], and the resolve of [k'] returned
    that object. *)
Definition cut_from (c : gmap nat factory_value) (k target : nat) (tr : list event) : Prop :=
  ∃ k' al T deps args a tr1 tr2,
    rtc (depends_on c) k k' ∧ rtc (depends_on c) k' target ∧
    c !! k' = Some (type_factory T deps) ∧ length args = length deps ∧
    (∃ i d, deps !! i = Some d ∧ rtc (depends_on c) d target ∧ args !! i = Some None) ∧
    tr = tr1 ++ [EvConstruct T args (inr a); EvReturn k' al (Some a)] ++ tr2.

(** An interface bound to a type. *)
Definition type_bound (c : gmap nat factory_value) (D : nat) : Prop :=
  ∃ T deps, c !! D = Some (type_factory T deps).

(** Handles at two different positions of an argument list, both for
    dependencies bound to a type, are never the same object. *)
Definition distinct_handles (c : gmap nat factory_value) (deps : list nat)
    (args : list (option nat)) : Prop :=
  ∀ i j D D' a, i ≠ j →
    deps !! i = Some D → deps !! j = Some D' → type_bound c D → type_bound c D' →
    args !! i = Some (Some a) → args !! j ≠ Some (Some a).

(** Every handle that the resolve of a type-bound interface returns is the
    object of a construction of the bound class, logged just before the
    return, on one argument per declared dependency and with no object
    shared between two type-bound dependencies. *)
Definition returns_own_construction (c : gmap nat factory_value) (tr : list event) : Prop :=
  ∀ n k al a T deps,
    tr !! n = Some (EvReturn k al (Some a)) →
    c !! k = Some (type_factory T deps) →
    ∃ m args, n = S m ∧ tr !! m = Some (EvConstruct T args (inr a)) ∧
              length args = length deps ∧ distinct_handles c deps args.

(** A construction whose argument list shares no object between two
    type-bound dependencies. *)
Definition unshared_arguments (c : gmap nat factory_value) (ev : event) : Prop :=
  match ev with
  | EvConstruct T args _ =>
      ∃ k deps, c !! k = Some (type_factory T deps) ∧ length args = length deps ∧
                distinct_handles c deps args
  | _ => True
  end.

(** Handles for type-bound dependencies that were allocated before [h]. *)
Definition handles_below (c : gmap nat factory_value) (deps : list nat)
    (args : list (option nat)) (h : nat) : Prop :=
  ∀ j D a, deps !! j = Some D → type_bound c D → args !! j = Some (Some a) → a < h.

(** The allocator and the log agree: since the allocator stood at [h0] the
    constructions have yielded exactly the numbers handed out, in order. *)
Definition alloc_ok (h0 : nat) (s : machine) : Prop :=
  h0 ≤ heap_top s ∧ constructed (trace s) = seq h0 (heap_top s - h0).

(** Two machines that differ at most in their registries. *)
Definition same_run (s1 s2 : machine) : Prop :=
  ancestor_list s1 = ancestor_list s2 ∧ heap_top s1 = heap_top s2 ∧
  trace s1 = trace s2.

(** [IA] takes two [IB], bound to a type. *)
Definition twice : gmap nat factory_value :=
  RegisterType IB TB [] (RegisterType IA TA [IB; IB] ∅).

(** ** Facts about the registry *)

Lemma Unregister_delete (key : nat) (c : gmap nat factory_value) :
  Unregister key c = delete key c.
Proof.
  unfold Unregister. destruct (c !! key) eqn:Hc; [done|]. by rewrite delete_id.
Qed.

Lemma Unregister_lookup (key k : nat) (c : gmap nat factory_value) :
  Unregister key c !! k = if decide (key = k) then None else c !! k.
Proof. rewrite Unregister_delete. apply lookup_delete. Qed.

Lemma RegisterFactory_lookup (key k : nat) (f : factory_value) (c : gmap nat factory_value) :
  RegisterFactory key f c !! k = if decide (key = k) then Some f else c !! k.
Proof.
  unfold RegisterFactory. rewrite lookup_insert, Unregister_lookup.
  by destruct (decide (key = k)).
Qed.

Lemma run_op_lookup (o : registry_op) (k : nat) (c : gmap nat factory_value) :
  run_op o c !! k = if decide (op_target o = k) then op_factory o else c !! k.
Proof.
  destruct o as [key T deps|key p|key]; cbn;
    [apply RegisterFactory_lookup|apply RegisterFactory_lookup|apply Unregister_lookup].
Qed.

Lemma run_ops_snoc (ops : list registry_op) (o : registry_op) :
  run_ops (ops ++ [o]) = run_op o (run_ops ops).
Proof. unfold run_ops. by rewrite foldl_app. Qed.

Lemma run_ops_lookup (ops : list registry_op) (key : nat) :
  run_ops ops !! key = last_touch key ops ≫= op_factory.
Proof.
  unfold last_touch. induction ops as [|o ops IH] using rev_ind; [done|].
  rewrite run_ops_snoc, run_op_lookup, filter_app, filter_cons, filter_nil.
  destruct (decide (op_target o = key)) as [Ho|Ho].
  - by rewrite last_snoc.
  - by rewrite app_nil_r.
Qed.

Lemma valid_order_NoDup (arg_order : nat → list nat) (n : nat) :
  valid_order arg_order → NoDup (arg_order n).
Proof. intros H. rewrite (H n). apply NoDup_seq. Qed.

Lemma valid_order_covers (arg_order : nat → list nat) (n i : nat) :
  valid_order arg_order → i < n → i ∈ arg_order n.
Proof. intros H Hi. rewrite (H n). apply elem_of_seq. lia. Qed.

Lemma left_to_right_valid : valid_order left_to_right.
Proof. by intros n. Qed.

Lemma right_to_left_valid : valid_order right_to_left.
Proof. intros n. apply reverse_Permutation. Qed.

Lemma omap_lookup_seq_from {A : Type} (l k : list A) :
  omap ((k ++ l) !!.) (seq (length k) (length l)) = l.
Proof.
  revert k. induction l as [|x l IH]; intros k; [done|].
  cbn. rewrite list_lookup_middle by done. f_equal.
  specialize (IH (k ++ [x])). rewrite length_app, Nat.add_1_r in IH.
  by rewrite <-(assoc_L (++)) in IH.
Qed.

Lemma omap_lookup_seq {A : Type} (l : list A) :
  omap (l !!.) (seq 0 (length l)) = l.
Proof. apply (omap_lookup_seq_from l []). Qed.

(** ** Facts about the resolver *)

Section ResolverFacts.

Variable arg_order : nat → list nat.
Variable ctor : nat → list (option nat) → option nat.

Local Abbreviation Resolve_in' := (Resolve_in arg_order ctor).
Local Abbreviation invoke' := (invoke arg_order ctor).
Local Abbreviation Resolve' := (Resolve arg_order ctor).

(** Reassociate both sides of an equation between traces. *)
Ltac trace_eq :=
  repeat first [rewrite <-(assoc_L (++)) | rewrite <-app_comm_cons]; done.

(** *** Small steps *)

Lemma Resolve_in_S (fuel : nat) (key : nat) (s : machine) :
  Resolve_in' (S fuel) key s =
  let al := ancestor_list s in
  let s0 := logged (EvCall key al) s in
  match m_factoryList s !! key with
  | None => (Ret None, logged (EvReturn key al None) s0)
  | Some f =>
      if bool_decide (key ∈ al) then (Ret None, logged (EvReturn key al None) s0)
      else
        match invoke' (Resolve_in' fuel) f (pushed key s0) with
        | (Ret pObj, s1) =>
            (Ret pObj, logged (EvReturn key (removelast (ancestor_list s1)) pObj) (popped s1))
        | (Throw e, s1) => (Throw e, s1)
        | (OutOfFuel, s1) => (OutOfFuel, s1)
        end
  end.
Proof.
  cbn [Resolve_in]. unfold bind, get_ancestors, log, find, push_back, pop_back, ret. cbn.
  destruct (m_factoryList s !! key) as [f|]; [|reflexivity].
  destruct (bool_decide (key ∈ ancestor_list s)); [reflexivity|].
  destruct (invoke' _ f _) as [[p|e|] s1]; reflexivity.
Qed.

Lemma below_weaken (st : list nat) (key : nat) (ev : event) :
  below (st ++ [key]) ev → below st ev.
Proof.
  destruct ev as [k al|k al p|T args r]; cbn; [| |done];
    intros H; (etrans; [|exact H]); by apply prefix_app_r.
Qed.

Lemma Forall_below_weaken (st : list nat) (key : nat) (tr : list event) :
  Forall (below (st ++ [key])) tr → Forall (below st) tr.
Proof. intros H. eapply Forall_impl; [exact H|]. apply below_weaken. Qed.

Lemma resolve_post_trace (key : nat) (s : machine) (o : outcome (option nat)) (s' : machine) :
  resolve_post key s o s' →
  ∃ tr, trace s' = trace s ++ tr ∧ Forall (below (ancestor_list s)) tr.
Proof.
  intros (_ & _ & H). destruct o as [p|e|].
  - destruct H as (_ & body & -> & Hb). eexists; split; [reflexivity|].
    constructor; [by cbn|]. apply Forall_app; split.
    + by eapply Forall_below_weaken.
    + repeat constructor. by cbn.
  - destruct H as (_ & tr & -> & Hb). eexists; split; [reflexivity|].
    constructor; [by cbn|]. by eapply Forall_below_weaken.
  - done.
Qed.

Lemma deeper_events_hidden (st : list nat) (D : nat) (body : list event) :
  Forall (below (st ++ [D])) body → calls_at st body = [] ∧ returns_at st body = [].
Proof.
  induction 1 as [|ev body Hev _ [IHc IHr]]; [done|].
  unfold calls_at, returns_at in *. cbn. rewrite IHc, IHr.
  destruct ev as [k al|k al p|T args r]; cbn in *; [| |done].
  - destruct (decide (al = st)) as [->|]; [|done].
    apply prefix_length in Hev. rewrite length_app in Hev. cbn in Hev. lia.
  - destruct (decide (al = st)) as [->|]; [|done].
    apply prefix_length in Hev. rewrite length_app in Hev. cbn in Hev. lia.
Qed.

Lemma make_shared_post (T : nat) (args : list (option nat)) (s : machine)
    (o : outcome (option nat)) (s' : machine) :
  make_shared ctor T args s = (o, s') →
  m_factoryList s' = m_factoryList s ∧ ancestor_list s' = ancestor_list s ∧
  match o with
  | Ret p => p = Some (heap_top s) ∧ heap_top s' = S (heap_top s) ∧ ctor T args = None ∧
             trace s' = trace s ++ [EvConstruct T args (inr (heap_top s))]
  | Throw e => heap_top s' = heap_top s ∧ ctor T args = Some e ∧
               trace s' = trace s ++ [EvConstruct T args (inl e)]
  | OutOfFuel => False
  end.
Proof.
  unfold make_shared. destruct (ctor T args) as [e|]; intros [= <- <-]; cbn; done.
Qed.

Lemma stack_ok_push (c : gmap nat factory_value) (al : list nat) (key T : nat)
    (deps : list nat) :
  stack_ok c al → key ∉ al → c !! key = Some (type_factory T deps) →
  stack_ok c (al ++ [key]).
Proof.
  intros [Hnd Hty] Hal Hc. split.
  - apply NoDup_app. split_and!; [done| |apply NoDup_singleton].
    intros x Hx ->%list_elem_of_singleton. done.
  - apply Forall_app. split; [done|]. repeat constructor. by exists T, deps.
Qed.

Lemma remaining_push (c : gmap nat factory_value) (al : list nat) (key : nat) :
  is_Some (c !! key) → key ∉ al → remaining c (al ++ [key]) < remaining c al.
Proof.
  intros Hin Hal. apply subset_size. apply elem_of_dom in Hin.
  split.
  - intros x. rewrite !elem_of_difference, !elem_of_list_to_set, elem_of_app. tauto.
  - intros Hsub. specialize (Hsub key).
    rewrite !elem_of_difference, !elem_of_list_to_set, elem_of_app in Hsub.
    destruct Hsub as [_ Hsub]; [done|]. apply Hsub. right. by apply list_elem_of_singleton.
Qed.

Lemma remaining_top (c : gmap nat factory_value) : remaining c [] = size c.
Proof.
  unfold remaining. rewrite <-size_dom. f_equal. cbn. apply set_eq. intros x.
  rewrite elem_of_difference, elem_of_empty. tauto.
Qed.

Lemma guard_fired_prefix (c : gmap nat factory_value) (tr tr' : list event) :
  tr `prefix_of` tr' → guard_fired c tr → guard_fired c tr'.
Proof.
  intros [tr2 ->] (g & al & T & deps & Hg & Hc & Hev).
  exists g, al, T, deps. split_and!; [done|done|]. apply elem_of_app. by left.
Qed.

(** *** Evaluating an argument pack

    What [eval_arguments] inherits from the resolve it is handed, as long as
    that resolve keeps the contract of an activation. *)

Section Arguments.

Variable resolve : nat → M (option nat).
Variable Arguments : list nat.

Hypothesis resolve_ok :
  ∀ D s o s', resolve D s = (o, s') → resolve_post D s o s'.

Lemma eval_arguments_length (idxs : list nat) :
  ∀ slots s args s',
    eval_arguments resolve Arguments idxs slots s = (Ret args, s') →
    length args = length slots.
Proof.
  induction idxs as [|i idxs IH]; intros slots s args s'; cbn.
  - by intros [= <- <-].
  - destruct (Arguments !! i) as [D|]; [|by apply IH].
    unfold bind. destruct (resolve D s) as [[p|e|] s1]; [|done|done].
    intros Hev%IH. by rewrite length_insert in Hev.
Qed.

Lemma eval_arguments_post (idxs : list nat) :
  ∀ slots s o s',
    eval_arguments resolve Arguments idxs slots s = (o, s') → args_post s o s'.
Proof.
  induction idxs as [|i idxs IH]; intros slots s o s' Hev; cbn in Hev.
  - inversion Hev; subst. split_and!; [done|lia| |done]. exists []. by rewrite app_nil_r.
  - destruct (Arguments !! i) as [D|]; [|by eapply IH].
    unfold bind in Hev. destruct (resolve D s) as [[p|e|] s1] eqn:HD.
    + apply resolve_ok in HD. pose proof (resolve_post_trace _ _ _ _ HD) as (tr1 & Htr1 & Hb1).
      destruct HD as (Hm1 & Hh1 & Hst1 & _).
      apply IH in Hev as (Hm & Hh & (tr2 & Htr2 & Hb2) & Ho).
      rewrite Hst1 in Hb2, Ho. rewrite Hm1 in Hm.
      split_and!; [done|lia| |done].
      exists (tr1 ++ tr2). rewrite Htr2, Htr1, (assoc_L (++)). split; [done|].
      by apply Forall_app.
    + inversion Hev; subst. apply resolve_ok in HD.
      pose proof (resolve_post_trace _ _ _ _ HD) as Htr.
      destruct HD as (Hm1 & Hh1 & (rest & Hst1) & _).
      split_and!; [done|done|done|]. by exists D, rest.
    + inversion Hev; subst. apply resolve_ok in HD.
      pose proof (resolve_post_trace _ _ _ _ HD) as Htr.
      destruct HD as (Hm1 & Hh1 & _). done.
Qed.

(** The nested resolves, as the trace shows them at the level of the pack:
    one call and one return per position, in the order of [idxs], each handle
    stored at its own position. *)
Lemma eval_arguments_anatomy (idxs : list nat) :
  ∀ slots s args s',
    NoDup idxs → length slots = length Arguments →
    eval_arguments resolve Arguments idxs slots s = (Ret args, s') →
    ∃ tr, trace s' = trace s ++ tr ∧
          calls_at (ancestor_list s) tr = omap (Arguments !!.) idxs ∧
          returns_at (ancestor_list s) tr = omap (zip Arguments args !!.) idxs ∧
          ∀ j, j ∉ idxs → args !! j = slots !! j.
Proof.
  induction idxs as [|i idxs IH]; intros slots s args s' Hnd Hlen; cbn.
  - intros [= <- <-]. exists []. by rewrite app_nil_r.
  - apply NoDup_cons in Hnd as [Hi Hnd].
    destruct (Arguments !! i) as [D|] eqn:HD.
    + unfold bind. destruct (resolve D s) as [[p|e|] s1] eqn:Hr; [|done|done].
      apply resolve_ok in Hr as (_ & _ & Hst1 & body & Htr1 & Hbody).
      intros Hev. apply IH in Hev as (tr & Htr & Hcalls & Hrets & Hslots);
        [|done|by rewrite length_insert].
      apply deeper_events_hidden in Hbody as [Hbc Hbr].
      assert (args !! i = Some p) as Hai.
      { rewrite (Hslots i Hi). apply list_lookup_insert_eq.
        rewrite Hlen. by eapply lookup_lt_Some. }
      rewrite Hst1 in Hcalls, Hrets.
      exists (EvCall D (ancestor_list s) :: body
                ++ [EvReturn D (ancestor_list s) p] ++ tr).
      split_and!.
      * rewrite Htr, Htr1. trace_eq.
      * unfold calls_at in *. cbn. rewrite decide_True by done.
        rewrite omap_app, Hbc. cbn. by rewrite Hcalls, ?HD.
      * unfold returns_at in *. cbn. rewrite omap_app, Hbr. cbn.
        rewrite decide_True by done. cbn.
        by rewrite Hrets, lookup_zip_with, HD, Hai.
      * intros j [Hji Hj]%not_elem_of_cons. rewrite (Hslots j Hj).
        by apply list_lookup_insert_ne.
    + intros Hev. apply IH in Hev as (tr & Htr & Hcalls & Hrets & Hslots); [|done|done].
      exists tr. split_and!; [done|done| |].
      * by rewrite lookup_zip_with, HD.
      * intros j [_ Hj]%not_elem_of_cons. by apply Hslots.
Qed.

(** Every position on [idxs] has had its resolve, run on the registry and the
    ancestor list that the pack started from. *)
Lemma eval_arguments_visits (idxs : list nat) :
  ∀ slots s args s' i D,
    eval_arguments resolve Arguments idxs slots s = (Ret args, s') →
    i ∈ idxs → Arguments !! i = Some D →
    ∃ s1 p s1',
      resolve D s1 = (Ret p, s1') ∧
      m_factoryList s1 = m_factoryList s ∧ ancestor_list s1 = ancestor_list s ∧
      trace s1' `prefix_of` trace s' ∧
      (NoDup idxs → length slots = length Arguments → args !! i = Some p).
Proof.
  induction idxs as [|j idxs IH]; intros slots s args s' i D; cbn.
  - intros _ Hi. by apply elem_of_nil in Hi.
  - destruct (Arguments !! j) as [D'|] eqn:HD'.
    + unfold bind. destruct (resolve D' s) as [[p|e|] s1] eqn:Hr; [|done|done].
      intros Hev Hi HD.
      pose proof (resolve_ok _ _ _ _ Hr) as (Hm1 & _ & Hst1 & _).
      destruct (decide (i = j)) as [->|Hij].
      * assert (D' = D) as -> by congruence.
        exists s, p, s1. split_and!; [done|done|done| |].
        -- apply eval_arguments_post in Hev as (_ & _ & (tr & -> & _) & _).
           by apply prefix_app_r.
        -- intros [Hj Hnd]%NoDup_cons Hlen.
           apply eval_arguments_anatomy in Hev as (_ & _ & _ & _ & Hslots);
             [|done|by rewrite length_insert].
           rewrite (Hslots j Hj). apply list_lookup_insert_eq.
           rewrite Hlen. by eapply lookup_lt_Some.
      * apply elem_of_cons in Hi as [?|Hi]; [done|].
        destruct (IH _ _ _ _ _ _ Hev Hi HD) as (s2 & q & s2' & Hr2 & Hm2 & Hst2 & Hpre & Hq).
        exists s2, q, s2'. split_and!; [done|congruence|congruence|done|].
        intros [_ Hnd]%NoDup_cons Hlen. apply Hq; [done|by rewrite length_insert].
    + intros Hev Hi HD. apply elem_of_cons in Hi as [->|Hi]; [congruence|].
      destruct (IH _ _ _ _ _ _ Hev Hi HD) as (s2 & q & s2' & Hr2 & Hm2 & Hst2 & Hpre & Hq).
      exists s2, q, s2'. split_and!; [done|done|done|done|].
      intros [_ Hnd]%NoDup_cons Hlen. by apply Hq.
Qed.

(** A property [P] of machines that every nested resolve preserves, when run
    on registry [c] under ancestor list [st], is preserved by the pack. *)
Lemma eval_arguments_preserves (P : machine → Prop) (c : gmap nat factory_value)
    (st : list nat) (idxs : list nat) :
  (∀ D s o s', m_factoryList s = c → ancestor_list s = st → resolve D s = (o, s') →
     P s → P s') →
  ∀ slots s o s', m_factoryList s = c → ancestor_list s = st →
    eval_arguments resolve Arguments idxs slots s = (o, s') →
    P s → P s'.
Proof.
  intros Hres. induction idxs as [|i idxs IH]; intros slots s o s' Hc Hst; cbn.
  - by intros [= <- <-].
  - destruct (Arguments !! i) as [D|]; [|by apply IH].
    unfold bind. destruct (resolve D s) as [[p|e|] s1] eqn:HD.
    + intros Hev HP. pose proof (Hres _ _ _ _ Hc Hst HD HP) as HP1.
      apply resolve_ok in HD as (Hm1 & _ & Hst1 & _).
      eapply IH; [| |exact Hev|exact HP1]; congruence.
    + intros [= <- <-]. by eapply Hres.
    + intros [= <- <-]. by eapply Hres.
Qed.

(** The pack does not exhaust the budget if no nested resolve does. *)
Lemma eval_arguments_fuel (c : gmap nat factory_value) (st : list nat) (idxs : list nat) :
  (∀ D s, m_factoryList s = c → ancestor_list s = st → (resolve D s).1 ≠ OutOfFuel) →
  ∀ slots s, m_factoryList s = c → ancestor_list s = st →
    (eval_arguments resolve Arguments idxs slots s).1 ≠ OutOfFuel.
Proof.
  intros Hres. induction idxs as [|i idxs IH]; intros slots s Hc Hst; cbn; [done|].
  destruct (Arguments !! i) as [D|]; [|by apply IH].
  unfold bind. specialize (Hres D s Hc Hst).
  destruct (resolve D s) as [[p|e|] s1] eqn:HD; [|done|done].
  apply resolve_ok in HD as (Hm1 & _ & Hst1 & _). apply IH; congruence.
Qed.

(** An exception that leaves the pack left a nested resolve. *)
Lemma eval_arguments_throw (idxs : list nat) :
  (∀ D s e s', resolve D s = (Throw e, s') → thrown_by_constructor ctor e (trace s')) →
  ∀ slots s e s',
    eval_arguments resolve Arguments idxs slots s = (Throw e, s') →
    thrown_by_constructor ctor e (trace s').
Proof.
  intros Hres. induction idxs as [|i idxs IH]; intros slots s e s'; cbn; [done|].
  destruct (Arguments !! i) as [D|]; [|by apply IH].
  unfold bind. destruct (resolve D s) as [[p|e1|] s1] eqn:HD.
  - apply IH.
  - intros [= <- <-]. by eapply Hres.
  - done.
Qed.

End Arguments.

Lemma eval_arguments_more_fuel (resolve1 resolve2 : nat → M (option nat))
    (Arguments idxs : list nat) :
  (∀ D s o s', resolve1 D s = (o, s') → o ≠ OutOfFuel → resolve2 D s = (o, s')) →
  ∀ slots s o s',
    eval_arguments resolve1 Arguments idxs slots s = (o, s') → o ≠ OutOfFuel →
    eval_arguments resolve2 Arguments idxs slots s = (o, s').
Proof.
  intros Hres. induction idxs as [|i idxs IH]; intros slots s o s'; cbn; [done|].
  destruct (Arguments !! i) as [D|]; [|by apply IH].
  unfold bind. destruct (resolve1 D s) as [[p|e|] s1] eqn:HD.
  - rewrite (Hres _ _ _ _ HD ltac:(done)). apply IH.
  - rewrite (Hres _ _ _ _ HD ltac:(done)). done.
  - by intros [= <- <-].
Qed.

(** *** One activation *)

Lemma invoke_post (resolve : nat → M (option nat)) (f : factory_value) (s : machine)
    (o : outcome (option nat)) (s' : machine) :
  (∀ D s o s', resolve D s = (o, s') → resolve_post D s o s') →
  invoke' resolve f s = (o, s') →
  m_factoryList s' = m_factoryList s ∧ heap_top s ≤ heap_top s' ∧
  (∃ tr, trace s' = trace s ++ tr ∧ Forall (below (ancestor_list s)) tr) ∧
  match o with
  | Ret _ => ancestor_list s' = ancestor_list s
  | Throw _ => ∃ rest, ancestor_list s' = ancestor_list s ++ rest
  | OutOfFuel => True
  end.
Proof.
  intros Hres. destruct f as [T Arguments|pInstance]; cbn.
  - unfold bind.
    destruct (eval_arguments _ _ _ _ s) as [[args|e|] s1] eqn:Hargs;
      apply (eval_arguments_post _ _ Hres) in Hargs as (Hm1 & Hh1 & (tr1 & Htr1 & Hb1) & Ho1).
    + intros Hmk. apply make_shared_post in Hmk as (Hm2 & Hst2 & Ho2).
      rewrite Hm2, Hm1, Hst2, Ho1. destruct o as [p|e|]; [| |done].
      * destruct Ho2 as (_ & Hh2 & _ & Htr2). split_and!; [done|lia| |done].
        eexists. rewrite Htr2, Htr1, <-(assoc_L (++)). split; [done|].
        apply Forall_app; split; [done|]. by repeat constructor.
      * destruct Ho2 as (Hh2 & _ & Htr2). split_and!; [done|lia| |].
        -- eexists. rewrite Htr2, Htr1, <-(assoc_L (++)). split; [done|].
           apply Forall_app; split; [done|]. by repeat constructor.
        -- exists []. by rewrite app_nil_r.
    + intros [= <- <-]. split_and!; [done|done|by exists tr1|].
      destruct Ho1 as (D & rest & ->). by exists (D :: rest).
    + intros [= <- <-]. split_and!; [done|done|by exists tr1|done].
  - intros [= <- <-]. split_and!; [done|lia| |done]. exists []. by rewrite app_nil_r.
Qed.

Lemma Resolve_in_post (fuel : nat) :
  ∀ key s o s', Resolve_in' fuel key s = (o, s') → resolve_post key s o s'.
Proof.
  induction fuel as [|fuel IH]; intros key s o s'; unfold resolve_post.
  - cbn. intros [= <- <-]. split_and!; [done|lia|]. exists []. by rewrite app_nil_r.
  - rewrite Resolve_in_S. cbn zeta.
    destruct (m_factoryList s !! key) as [f|] eqn:Hf.
    2:{ intros [= <- <-]. split_and!; [done|cbn; lia|done|]. exists []. split; [|done].
        cbn. by rewrite <-(assoc_L (++)). }
    destruct (bool_decide (key ∈ ancestor_list s)) eqn:Hal.
    { intros [= <- <-]. split_and!; [done|cbn; lia|done|]. exists []. split; [|done].
      cbn. by rewrite <-(assoc_L (++)). }
    destruct (invoke' _ f _) as [[p|e|] s1] eqn:Hinv;
      apply (invoke_post _ _ _ _ _ IH) in Hinv as (Hm1 & Hh1 & (tr & Htr & Hb) & Ho);
      cbn in Hm1, Hh1, Htr, Hb, Ho; intros [= <- <-].
    + cbn. rewrite Ho, removelast_last. split_and!; [done|done|done|].
      exists tr. split; [|done]. rewrite Htr, <-!(assoc_L (++)). done.
    + destruct Ho as [rest Ho]. split_and!; [done|done| |].
      * exists rest. by rewrite Ho, <-(assoc_L (++)).
      * exists tr. split; [|done]. by rewrite Htr, <-(assoc_L (++)).
    + split_and!; [done|done|]. exists (EvCall key (ancestor_list s) :: tr).
      split; [by rewrite Htr, <-(assoc_L (++))|].
      constructor; [by cbn|]. by eapply Forall_below_weaken.
Qed.

(** A resolve of an interface bound to a type, when it returns, has evaluated
    the whole argument pack and constructed on the result. *)
Lemma Resolve_in_type_inv (fuel : nat) (key : nat) (s : machine) (T : nat)
    (deps : list nat) (p : option nat) (s' : machine) :
  m_factoryList s !! key = Some (type_factory T deps) →
  key ∉ ancestor_list s →
  Resolve_in' fuel key s = (Ret p, s') →
  ∃ fuel' args s1,
    fuel = S fuel' ∧
    eval_arguments (Resolve_in' fuel') deps (arg_order (length deps))
      (replicate (length deps) None)
      (pushed key (logged (EvCall key (ancestor_list s)) s)) = (Ret args, s1) ∧
    ctor T args = None ∧
    p = Some (heap_top s1) ∧
    heap_top s' = S (heap_top s1) ∧
    trace s' = trace s1 ++ [EvConstruct T args (inr (heap_top s1));
                            EvReturn key (ancestor_list s) p].
Proof.
  intros Hf Hal. destruct fuel as [|fuel]; [done|].
  rewrite Resolve_in_S. cbn zeta. rewrite Hf.
  rewrite bool_decide_eq_false_2 by done. unfold invoke, bind.
  destruct (eval_arguments _ _ _ _ _) as [[args|e|] s1] eqn:Hargs; [|done|done].
  apply (eval_arguments_post _ _ (Resolve_in_post fuel)) in Hargs as Hpost.
  destruct Hpost as (_ & _ & _ & Hst1). cbn in Hst1.
  destruct (make_shared ctor T args s1) as [[q|e|] s2] eqn:Hmk; [|done|done].
  apply make_shared_post in Hmk as (_ & Hst2 & -> & Hh2 & Hctor & Htr2).
  intros [= <- <-]. exists fuel, args, s1. split_and!; [done|done|done|done|done|].
  cbn. rewrite Hst2, Hst1, removelast_last, Htr2. trace_eq.
Qed.

(** The trace of such a resolve: its own call, the nested resolves one after
    the other, the construction, its own return. *)
Lemma Resolve_in_type_anatomy (fuel : nat) (key : nat) (s : machine) (T : nat)
    (deps : list nat) (p : option nat) (s' : machine) :
  m_factoryList s !! key = Some (type_factory T deps) →
  key ∉ ancestor_list s →
  Resolve_in' fuel key s = (Ret p, s') →
  ∃ body args a,
    p = Some a ∧ heap_top s ≤ a ∧ heap_top s' = S a ∧ ctor T args = None ∧
    length args = length deps ∧
    trace s' = trace s ++ EvCall key (ancestor_list s) :: body
                 ++ [EvConstruct T args (inr a); EvReturn key (ancestor_list s) (Some a)] ∧
    Forall (below (ancestor_list s ++ [key])) body ∧
    (NoDup (arg_order (length deps)) →
       calls_at (ancestor_list s ++ [key]) body
         = omap (deps !!.) (arg_order (length deps)) ∧
       returns_at (ancestor_list s ++ [key]) body
         = omap (zip deps args !!.) (arg_order (length deps))).
Proof.
  intros Hf Hal Hr.
  destruct (Resolve_in_type_inv _ _ _ _ _ _ _ Hf Hal Hr)
    as (fuel' & args & s1 & -> & Hargs & Hctor & -> & Hh & Htr).
  pose proof (eval_arguments_length _ _ _ _ _ _ _ Hargs) as Hlen.
  rewrite length_replicate in Hlen.
  pose proof (eval_arguments_post _ _ (Resolve_in_post fuel') _ _ _ _ _ Hargs)
    as (_ & Hh1 & (body & Hbody & Hbelow) & _). cbn in Hh1, Hbody, Hbelow.
  exists body, args, (heap_top s1). split_and!; [done|done|done|done|done| |done|].
  - rewrite Htr, Hbody. trace_eq.
  - intros Hnd.
    apply (eval_arguments_anatomy _ _ (Resolve_in_post fuel')) in Hargs
      as (tr' & Htr' & Hcalls & Hrets & _); [|done|by rewrite length_replicate].
    cbn in Htr', Hcalls, Hrets. rewrite Hbody in Htr'.
    apply (inj (app _)) in Htr' as ->. done.
Qed.

Lemma Resolve_in_absent_iff (fuel : nat) (key : nat) (s : machine) (p : option nat)
    (s' : machine) :
  Resolve_in' fuel key s = (Ret p, s') →
  p = None ↔ absent_here (m_factoryList s) (ancestor_list s) key.
Proof.
  unfold absent_here. destruct fuel as [|fuel]; [done|].
  rewrite Resolve_in_S. cbn zeta.
  destruct (m_factoryList s !! key) as [f|] eqn:Hf.
  2:{ intros [= <- <-]. split; [by left|done]. }
  destruct (bool_decide (key ∈ ancestor_list s)) eqn:Hal.
  { apply bool_decide_eq_true in Hal. intros [= <- <-]. split; [by right; left|done]. }
  apply bool_decide_eq_false in Hal.
  destruct f as [T deps|pInstance]; unfold invoke, bind.
  - destruct (eval_arguments _ _ _ _ _) as [[args|e|] s1]; [|done|done].
    destruct (make_shared ctor T args s1) as [[q|e|] s2] eqn:Hmk; [|done|done].
    apply make_shared_post in Hmk as (_ & _ & -> & _). intros [= <- <-].
    split; [done|]. intros [?|[?|?]]; done.
  - cbn. intros [= <- <-]. split.
    + intros ->. by right; right.
    + intros [?|[?|[= ->]]]; done.
Qed.

Lemma Resolve_in_throw (fuel : nat) :
  ∀ key s e s', Resolve_in' fuel key s = (Throw e, s') →
    thrown_by_constructor ctor e (trace s').
Proof.
  induction fuel as [|fuel IH]; intros key s e s'; [done|].
  rewrite Resolve_in_S. cbn zeta.
  destruct (m_factoryList s !! key) as [f|]; [|done].
  destruct (bool_decide (key ∈ ancestor_list s)); [done|].
  destruct f as [T deps|pInstance]; unfold invoke, bind; [|done].
  destruct (eval_arguments _ _ _ _ _) as [[args|e1|] s1] eqn:Hargs.
  - destruct (make_shared ctor T args s1) as [[q|e1|] s2] eqn:Hmk; [done| |done].
    apply make_shared_post in Hmk as (_ & _ & _ & Hctor & Htr). intros [= <- <-].
    by exists (trace s1), T, args.
  - intros [= <- <-]. by eapply eval_arguments_throw.
  - done.
Qed.

(** *** The recursion budget *)

Lemma Resolve_in_fuel (fuel : nat) :
  ∀ key s, remaining (m_factoryList s) (ancestor_list s) < fuel →
    (Resolve_in' fuel key s).1 ≠ OutOfFuel.
Proof.
  induction fuel as [|fuel IH]; intros key s Hlt; [lia|].
  rewrite Resolve_in_S. cbn zeta.
  destruct (m_factoryList s !! key) as [f|] eqn:Hf; [|done].
  destruct (bool_decide (key ∈ ancestor_list s)) eqn:Hal; [done|].
  apply bool_decide_eq_false in Hal.
  pose proof (remaining_push (m_factoryList s) (ancestor_list s) key
                ltac:(by rewrite Hf) Hal) as Hpush.
  destruct f as [T deps|pInstance]; unfold invoke, bind; [|done].
  pose proof (eval_arguments_fuel (Resolve_in' fuel) deps (Resolve_in_post fuel)
                (m_factoryList s) (ancestor_list s ++ [key]) (arg_order (length deps)))
    as Hargs.
  specialize (Hargs (λ D s1 Hc Hst, IH D s1 ltac:(rewrite Hc, Hst; lia))
                (replicate (length deps) None)
                (pushed key (logged (EvCall key (ancestor_list s)) s)) eq_refl eq_refl).
  destruct (eval_arguments _ _ _ _ _) as [[args|e|] s1]; [|done|done].
  unfold make_shared. by destruct (ctor T args).
Qed.

Lemma Resolve_in_S_fuel (fuel : nat) :
  ∀ key s o s', Resolve_in' fuel key s = (o, s') → o ≠ OutOfFuel →
    Resolve_in' (S fuel) key s = (o, s').
Proof.
  induction fuel as [|fuel IH]; intros key s o s'.
  - cbn. by intros [= <- <-].
  - rewrite (Resolve_in_S (S fuel)), (Resolve_in_S fuel). cbn zeta.
    destruct (m_factoryList s !! key) as [f|]; [|done].
    destruct (bool_decide (key ∈ ancestor_list s)); [done|].
    destruct f as [T Arguments|pInstance]; unfold invoke; [|done].
    unfold bind.
    destruct (eval_arguments (Resolve_in' fuel) _ _ _ _) as [[args|e|] s1] eqn:Hargs.
    + rewrite (eval_arguments_more_fuel _ _ _ _ IH _ _ _ _ Hargs ltac:(done)). done.
    + rewrite (eval_arguments_more_fuel _ _ _ _ IH _ _ _ _ Hargs ltac:(done)). done.
    + by intros [= <- <-].
Qed.

Lemma Resolve_in_more_fuel (fuel fuel' : nat) (key : nat) (s : machine)
    (o : outcome (option nat)) (s' : machine) :
  Resolve_in' fuel key s = (o, s') → o ≠ OutOfFuel → fuel ≤ fuel' →
  Resolve_in' fuel' key s = (o, s').
Proof.
  intros Hr Ho Hle. induction Hle as [|fuel' Hle IH]; [done|].
  by apply Resolve_in_S_fuel.
Qed.

(** *** Every logged event is well formed *)

Lemma Resolve_in_events_ok (c : gmap nat factory_value) (fuel : nat) :
  ∀ key s o s', m_factoryList s = c → stack_ok c (ancestor_list s) →
    Resolve_in' fuel key s = (o, s') →
    Forall (event_ok c) (trace s) → Forall (event_ok c) (trace s').
Proof.
  induction fuel as [|fuel IH]; intros key s o s' Hc Hst.
  - cbn. by intros [= <- <-].
  - rewrite Resolve_in_S. cbn zeta. rewrite Hc.
    destruct (c !! key) as [f|] eqn:Hf.
    2:{ intros [= <- <-] Hok. cbn. rewrite !Forall_app, !Forall_singleton.
        split_and!; [done|by apply ok_call|by apply ok_return_unregistered]. }
    destruct (bool_decide (key ∈ ancestor_list s)) eqn:Hal.
    { apply bool_decide_eq_true in Hal. intros [= <- <-] Hok. cbn.
      rewrite !Forall_app, !Forall_singleton.
      split_and!; [done|by apply ok_call|by apply ok_return_cycle]. }
    apply bool_decide_eq_false in Hal.
    destruct f as [T deps|pInstance]; unfold invoke.
    + assert (∀ slots o1 s1,
        eval_arguments (Resolve_in' fuel) deps (arg_order (length deps)) slots
          (pushed key (logged (EvCall key (ancestor_list s)) s)) = (o1, s1) →
        Forall (event_ok c) (trace s) → Forall (event_ok c) (trace s1)) as Hargs_ok.
      { intros slots o1 s1 Hargs Hok.
        eapply (eval_arguments_preserves _ _ (Resolve_in_post fuel)
                  (λ s, Forall (event_ok c) (trace s)) c (ancestor_list s ++ [key]))
          in Hargs; [done| |by cbn|done|].
        - intros D s2 o2 s2' Hc2 Hst2. apply IH; [done|].
          rewrite Hst2. by eapply stack_ok_push.
        - cbn. rewrite Forall_app, Forall_singleton. split; [done|]. by apply ok_call. }
      unfold bind.
      destruct (eval_arguments _ _ _ _ _) as [[args|e|] s1] eqn:Hargs.
      * intros Hr Hok.
        pose proof (eval_arguments_length _ _ _ _ _ _ _ Hargs) as Hlen.
        rewrite length_replicate in Hlen.
        pose proof (eval_arguments_post _ _ (Resolve_in_post fuel) _ _ _ _ _ Hargs)
          as (Hm1 & _ & _ & Hst1). cbn in Hm1, Hst1.
        apply Hargs_ok in Hargs; [|done].
        destruct (make_shared ctor T args s1) as [[p|e|] s2] eqn:Hmk;
          apply make_shared_post in Hmk as (Hm2 & Hst2 & Ho2); [| |done].
        -- destruct Ho2 as (-> & _ & _ & Htr2). injection Hr as <- <-. cbn.
           rewrite Hst2, Hst1, removelast_last, Htr2, !Forall_app, !Forall_singleton.
           split_and!; [done|by eapply ok_construct|by eapply ok_return_type].
        -- destruct Ho2 as (_ & _ & Htr2). injection Hr as <- <-.
           rewrite Htr2, Forall_app, Forall_singleton. split; [done|].
           by eapply ok_construct.
      * intros [= <- <-] Hok. by eapply Hargs_ok.
      * intros [= <- <-] Hok. by eapply Hargs_ok.
    + cbn. intros [= <- <-] Hok. cbn.
      rewrite removelast_last, !Forall_app, !Forall_singleton.
      split_and!; [done|by apply ok_call|by eapply ok_return_instance].
Qed.

(** *** Dependency cycles *)

(** Following a path of dependencies that ends on the ancestor list, a
    resolve that returns has made the guard fire. *)
Lemma guard_fires_on_path (c : gmap nat factory_value) (k target : nat) :
  valid_order arg_order →
  rtc (depends_on c) k target →
  ∀ fuel s p s',
    m_factoryList s = c → stack_ok c (ancestor_list s) → target ∈ ancestor_list s →
    Resolve_in' fuel k s = (Ret p, s') →
    guard_fired c (trace s').
Proof.
  intros Hord Hpath.
  assert (∀ k fuel s p s' T deps,
    m_factoryList s = c → c !! k = Some (type_factory T deps) → k ∈ ancestor_list s →
    Resolve_in' fuel k s = (Ret p, s') → guard_fired c (trace s')) as Hguard.
  { intros k0 fuel s p s' T deps Hc Hk Hal Hr.
    assert (p = None) as ->.
    { apply (Resolve_in_absent_iff _ _ _ _ _ Hr). by right; left. }
    apply Resolve_in_post in Hr as (_ & _ & _ & body & -> & _).
    exists k0, (ancestor_list s), T, deps. split_and!; [done|done|].
    rewrite !elem_of_app, elem_of_cons, elem_of_app, list_elem_of_singleton. tauto. }
  induction Hpath as [k|k d target (T & deps & Hk & Hd) Hpath IH];
    intros fuel s p s' Hc Hst Htarget Hr.
  - destruct Hst as [_ Hty]. rewrite Forall_forall in Hty.
    destruct (Hty _ Htarget) as (T & deps & Hk). by eapply Hguard.
  - destruct (decide (k ∈ ancestor_list s)) as [Hal|Hal]; [by eapply Hguard|].
    rewrite <-Hc in Hk.
    destruct (Resolve_in_type_inv _ _ _ _ _ _ _ Hk Hal Hr)
      as (fuel' & args & s1 & -> & Hargs & _ & _ & _ & Htr).
    apply list_elem_of_lookup in Hd as [i Hi].
    destruct (eval_arguments_visits _ _ (Resolve_in_post fuel') _ _ _ _ _ i d Hargs)
      as (sd & q & sd' & Hrd & Hmd & Hstd & Hpre & _); [|done|].
    { apply valid_order_covers; [done|]. by eapply lookup_lt_Some. }
    cbn in Hmd, Hstd. eapply guard_fired_prefix.
    2:{ eapply (IH fuel' sd q sd'); [congruence| | |done].
        - rewrite Hstd. eapply stack_ok_push; [done|done|]. by rewrite <-Hc.
        - rewrite Hstd. apply elem_of_app. by left. }
    etrans; [exact Hpre|]. rewrite Htr. by apply prefix_app_r.
Qed.

(** ** Properties of the container *)

Lemma stack_ok_bounded (c : gmap nat factory_value) (al : list nat) :
  stack_ok c al → NoDup al ∧ (∀ k, k ∈ al → is_Some (c !! k)) ∧ length al ≤ size c.
Proof.
  intros [Hnd Hty]. rewrite Forall_forall in Hty.
  assert (∀ k, k ∈ al → is_Some (c !! k)) as Hreg.
  { intros k (T & deps & ->)%Hty. done. }
  split_and!; [done|done|].
  rewrite <-(size_list_to_set (C:=gset nat)), <-size_dom by done.
  apply subseteq_size. intros k Hk%elem_of_list_to_set. by apply elem_of_dom, Hreg.
Qed.

Lemma event_ok_bounded (c : gmap nat factory_value) (ev : event) :
  event_ok c ev → stack_bounded c ev.
Proof. destruct 1; cbn; try done; by apply stack_ok_bounded. Qed.

Lemma Resolve_events_ok (key : nat) (c : gmap nat factory_value) (heap : nat) :
  Forall (event_ok c) (trace (Resolve' key c heap).2).
Proof.
  unfold Resolve.
  destruct (Resolve_in' _ key _) as [o s'] eqn:Hr.
  eapply Resolve_in_events_ok in Hr; [done|done| |done].
  split; [apply NoDup_nil_2|done].
Qed.

Lemma Resolve_no_OutOfFuel (key : nat) (c : gmap nat factory_value) (heap : nat) :
  (Resolve' key c heap).1 ≠ OutOfFuel.
Proof. apply Resolve_in_fuel. cbn. rewrite remaining_top. lia. Qed.

Lemma Resolve_type_fresh (c : gmap nat factory_value) (key T : nat) (deps : list nat)
    (heap : nat) (o : outcome (option nat)) (s' : machine) :
  c !! key = Some (type_factory T deps) →
  Resolve' key c heap = (o, s') →
  fresh_or_thrown ctor key T heap o s'.
Proof.
  intros Hk Hr. pose proof (Resolve_no_OutOfFuel key c heap) as Hfuel.
  rewrite Hr in Hfuel. unfold Resolve in Hr. destruct o as [p|e|]; cbn; [| |done].
  - destruct (Resolve_in_type_anatomy _ key (Machine c [] heap []) _ _ _ _ Hk
                ltac:(apply not_elem_of_nil) Hr)
      as (body & args & a & -> & Hle & Htop & _ & _ & Htr & _).
    cbn in Hle, Htr. exists (EvCall key [] :: body), args, a.
    split_and!; [done|done|lia|by rewrite Htr].
  - by eapply Resolve_in_throw.
Qed.

Lemma cut_from_extend (c : gmap nat factory_value) (k k0 target : nat)
    (tr more : list event) :
  depends_on c k0 k → cut_from c k target tr → cut_from c k0 target (tr ++ more).
Proof.
  intros Hdep (k' & al & T & deps & args & a & tr1 & tr2 & Hto & Hfrom & Hk & Hlen & Hin & ->).
  exists k', al, T, deps, args, a, tr1, (tr2 ++ more).
  split_and!; [by eapply rtc_l|done|done|done|done|]. trace_eq.
Qed.

(** One level of a resolve along a dependency: if the nested resolve of [d]
    either hits the guard or has an absent handle reach a constructor further
    down, an absent handle reaches a constructor at or below [k]. *)
Lemma cut_step (c : gmap nat factory_value) (k d target : nat) (fuel : nat)
    (s : machine) (p : option nat) (s' : machine) :
  valid_order arg_order →
  m_factoryList s = c → k ∉ ancestor_list s →
  depends_on c k d → rtc (depends_on c) d target →
  Resolve_in' fuel k s = (Ret p, s') →
  (∀ fuel' sd q sd',
     m_factoryList sd = c → ancestor_list sd = ancestor_list s ++ [k] →
     Resolve_in' fuel' d sd = (Ret q, sd') →
     q = None ∨ cut_from c d target (trace sd')) →
  cut_from c k target (trace s').
Proof.
  intros Hord Hc Hal Hdep Hpath Hr Hnested.
  pose proof Hdep as (T & deps & Hk' & Hd). pose proof Hk' as Hk. rewrite <-Hc in Hk.
  destruct (Resolve_in_type_inv _ _ _ _ _ _ _ Hk Hal Hr)
    as (fuel' & args & s1 & _ & Hargs & _ & -> & _ & Htr).
  pose proof (eval_arguments_length _ _ _ _ _ _ _ Hargs) as Hlen.
  rewrite length_replicate in Hlen.
  apply list_elem_of_lookup in Hd as [i Hi].
  destruct (eval_arguments_visits _ _ (Resolve_in_post fuel') _ _ _ _ _ i d Hargs)
    as (sd & q & sd' & Hrd & Hmd & Hstd & [more Hpre] & Hq); [|done|].
  { apply valid_order_covers; [done|]. by eapply lookup_lt_Some. }
  cbn in Hmd, Hstd.
  specialize (Hq (valid_order_NoDup _ _ Hord) ltac:(by rewrite length_replicate)).
  destruct (Hnested fuel' sd q sd' ltac:(congruence) Hstd Hrd) as [->|Hcut].
  - exists k, (ancestor_list s), T, deps, args, (heap_top s1), (trace s1), [].
    split_and!; [reflexivity|by eapply rtc_l|done|done| |by rewrite Htr].
    by exists i, d.
  - rewrite Htr, Hpre, <-(assoc_L (++)). by eapply cut_from_extend.
Qed.

(** Following a path of dependencies that ends on the ancestor list, a
    resolve that returns has come back absent from the guard, or an absent
    handle has reached a constructor on the path. *)
Lemma cut_on_path (c : gmap nat factory_value) (k target : nat) :
  valid_order arg_order →
  rtc (depends_on c) k target →
  ∀ fuel s p s',
    m_factoryList s = c → target ∈ ancestor_list s →
    Resolve_in' fuel k s = (Ret p, s') →
    p = None ∨ cut_from c k target (trace s').
Proof.
  intros Hord Hpath.
  induction Hpath as [k|k d target Hdep Hpath IH]; intros fuel s p s' Hc Htarget Hr.
  - left. apply (Resolve_in_absent_iff _ _ _ _ _ Hr). by right; left.
  - destruct (decide (k ∈ ancestor_list s)) as [Hal|Hal].
    { left. apply (Resolve_in_absent_iff _ _ _ _ _ Hr). by right; left. }
    right. eapply cut_step; [done|done|done|done|done|done|].
    intros fuel' sd q sd' Hmd Hstd Hrd. eapply IH; [done| |done].
    rewrite Hstd. apply elem_of_app. by left.
Qed.

(** C1, as amended.  On a dependency cycle of type bindings the absent marker
    is what the nested resolve gets that finds its interface on the ancestor
    list, not what the top-level resolve returns.  A top-level resolve of an
    interface of the cycle that returns yields a handle to an object of the
    bound class, constructed as the last step of the call; the cycle guard has
    fired below it; some interface of the cycle had its constructor run on an
    argument list holding the absent marker, at the position of a dependency
    that leads back to the interface asked for; and the ancestor list is
    empty when the call returns. *)
Theorem cycle_is_cut_below_the_top (c : gmap nat factory_value) (key heap : nat)
    (p : option nat) (s' : machine) :
  valid_order arg_order →
  on_cycle c key →
  Resolve' key c heap = (Ret p, s') →
  ((∃ a, p = Some a ∧ heap ≤ a) ∧ ancestor_list s' = [] ∧ guard_fired c (trace s')) ∧
  (∃ T deps, c !! key = Some (type_factory T deps) ∧
             fresh_or_thrown ctor key T heap (Ret p) s') ∧
  cut_from c key key (trace s').
Proof.
  intros Hord Hcyc Hr.
  assert (∃ d, depends_on c key d ∧ rtc (depends_on c) d key) as (d & Hedge & Hpath).
  { unfold on_cycle in Hcyc. inversion Hcyc as [? ? Hd|? d ? Hd Htc]; subst.
    - by exists key.
    - exists d. split; [done|]. by apply tc_rtc. }
  pose proof Hedge as (T & deps & Hk & Hd).
  assert (key ∉ ([] : list nat)) as Hal by apply not_elem_of_nil.
  split_and!.
  - unfold Resolve in Hr.
    destruct (Resolve_in_type_anatomy _ key (Machine c [] heap []) _ _ _ _ Hk Hal Hr)
      as (body & args & a & -> & Hle & _). by exists a.
  - unfold Resolve in Hr. by apply Resolve_in_post in Hr as (_ & _ & -> & _).
  - unfold Resolve in Hr.
    destruct (Resolve_in_type_inv _ key (Machine c [] heap []) _ _ _ _ Hk Hal Hr)
      as (fuel' & args & s1 & _ & Hargs & _ & _ & _ & Htr).
    apply list_elem_of_lookup in Hd as [i Hi].
    destruct (eval_arguments_visits _ _ (Resolve_in_post fuel') _ _ _ _ _ i d Hargs)
      as (sd & q & sd' & Hrd & Hmd & Hstd & Hpre & _); [|done|].
    { apply valid_order_covers; [done|]. by eapply lookup_lt_Some. }
    cbn in Hmd, Hstd. eapply guard_fired_prefix.
    2:{ eapply (guard_fires_on_path c d key Hord Hpath fuel' sd q sd'); [done| | |done].
        - rewrite Hstd. eapply (stack_ok_push c []); [|done|done].
          split; [apply NoDup_nil_2|done].
        - rewrite Hstd. by apply list_elem_of_singleton. }
    etrans; [exact Hpre|]. rewrite Htr. by apply prefix_app_r.
  - exists T, deps. split; [done|]. by eapply Resolve_type_fresh.
  - unfold Resolve in Hr.
    eapply (cut_step c key d key _ (Machine c [] heap [])); [done|done|done|done|done|done|].
    intros fuel' sd q sd' Hmd Hstd Hrd.
    eapply (cut_on_path c d key Hord Hpath); [done| |done].
    rewrite Hstd. by apply list_elem_of_singleton.
Qed.

(** C2, as amended.  A resolve of an interface bound to [T] with declared
    dependencies [deps] runs one nested resolve per dependency, one after the
    other, in the order in which the compiler evaluates the arguments of the
    call; the handles reach the constructor in declaration order, position
    [i] holding what the resolve of the [i]-th dependency returned; the
    constructor runs after all of them.  When the compiler evaluates left to
    right, the nested resolves run in declaration order. *)
Theorem dependencies_resolved_then_constructed (fuel : nat) (key : nat) (s : machine)
    (T : nat) (deps : list nat) (p : option nat) (s' : machine) :
  valid_order arg_order →
  m_factoryList s !! key = Some (type_factory T deps) →
  key ∉ ancestor_list s →
  Resolve_in' fuel key s = (Ret p, s') →
  ∃ body args a,
    p = Some a ∧ length args = length deps ∧
    trace s' = trace s ++ EvCall key (ancestor_list s) :: body
                 ++ [EvConstruct T args (inr a); EvReturn key (ancestor_list s) (Some a)] ∧
    calls_at (ancestor_list s ++ [key]) body = omap (deps !!.) (arg_order (length deps)) ∧
    returns_at (ancestor_list s ++ [key]) body
      = omap (zip deps args !!.) (arg_order (length deps)) ∧
    calls_at (ancestor_list s ++ [key]) body ≡ₚ deps ∧
    returns_at (ancestor_list s ++ [key]) body ≡ₚ zip deps args ∧
    (arg_order (length deps) = seq 0 (length deps) →
       calls_at (ancestor_list s ++ [key]) body = deps ∧
       returns_at (ancestor_list s ++ [key]) body = zip deps args).
Proof.
  intros Hord Hk Hal Hr.
  destruct (Resolve_in_type_anatomy _ _ _ _ _ _ _ Hk Hal Hr)
    as (body & args & a & -> & _ & _ & _ & Hlen & Htr & _ & Hcr).
  destruct (Hcr (valid_order_NoDup _ _ Hord)) as [Hcalls Hrets].
  assert (length (zip deps args) = length deps) as Hzip.
  { rewrite length_zip_with. lia. }
  exists body, args, a. split_and!; [done|done|done|done|done| | |].
  - rewrite Hcalls, (Hord (length deps)). by rewrite omap_lookup_seq.
  - rewrite Hrets, (Hord (length deps)), <-Hzip. by rewrite omap_lookup_seq.
  - intros Hltr. rewrite Hcalls, Hrets, Hltr. split; [apply omap_lookup_seq|].
    rewrite <-Hzip. apply omap_lookup_seq.
Qed.

(** C3, as amended.  An activation of the nested resolve that returns has
    popped what it pushed: the ancestor list is as at entry, and in between it
    only ever grew above the entry contents.  An activation left by an
    exception has not popped: the interface it pushed, and whatever deeper
    activations pushed above it, are still on the list.  The list is local to
    the top-level call, so the next top-level resolve on the container starts
    from an empty list all the same. *)
Theorem stack_restored_on_return_only (fuel : nat) (key : nat) (s : machine)
    (o : outcome (option nat)) (s' : machine) :
  Resolve_in' fuel key s = (o, s') →
  match o with
  | Ret _ => ancestor_list s' = ancestor_list s
  | Throw _ => ∃ rest, ancestor_list s' = ancestor_list s ++ key :: rest
  | OutOfFuel => True
  end ∧
  (∃ tr, trace s' = trace s ++ tr ∧ Forall (below (ancestor_list s)) tr) ∧
  (∀ key2 heap2,
     Resolve' key2 (m_factoryList s') heap2
     = Resolve_in' (S (size (m_factoryList s))) key2 (Machine (m_factoryList s) [] heap2 [])).
Proof.
  intros Hr. apply Resolve_in_post in Hr as Hpost.
  pose proof (resolve_post_trace _ _ _ _ Hpost) as Htr.
  destruct Hpost as (Hm & _ & Ho). split_and!; [|done|].
  - destruct o as [p|e|]; [by destruct Ho|by destruct Ho|done].
  - intros key2 heap2. unfold Resolve. by rewrite Hm.
Qed.

(** C4.  A resolve of an interface bound to type [T] never ends in the absent
    marker and is never cut short by the container: it either returns a handle
    to the [T] it constructed, or lets through the exception of a constructor.
    When it returns, the constructor got one handle per declared dependency,
    and the handle at a position is absent exactly when the nested resolve of
    that dependency comes back absent (nothing registered, a cycle, or a null
    instance). *)
Theorem absent_dependency_is_passed_on (fuel : nat) (key : nat) (s : machine)
    (T : nat) (deps : list nat) (o : outcome (option nat)) (s' : machine) :
  valid_order arg_order →
  m_factoryList s !! key = Some (type_factory T deps) →
  key ∉ ancestor_list s →
  remaining (m_factoryList s) (ancestor_list s) < fuel →
  Resolve_in' fuel key s = (o, s') →
  match o with
  | Ret p =>
      ∃ tr args a,
        p = Some a ∧ length args = length deps ∧
        trace s' = tr ++ [EvConstruct T args (inr a);
                          EvReturn key (ancestor_list s) (Some a)] ∧
        ∀ i D, deps !! i = Some D →
          (args !! i = Some None
             ↔ absent_here (m_factoryList s) (ancestor_list s ++ [key]) D) ∧
          (∀ fuel2 s2 s2',
             m_factoryList s2 = m_factoryList s →
             ancestor_list s2 = ancestor_list s ++ [key] →
             Resolve_in' fuel2 D s2 = (Ret None, s2') →
             args !! i = Some None)
  | Throw e => thrown_by_constructor ctor e (trace s')
  | OutOfFuel => False
  end.
Proof.
  intros Hord Hk Hal Hfuel Hr. destruct o as [p|e|].
  - destruct (Resolve_in_type_inv _ _ _ _ _ _ _ Hk Hal Hr)
      as (fuel' & args & s1 & _ & Hargs & _ & -> & _ & Htr).
    pose proof (eval_arguments_length _ _ _ _ _ _ _ Hargs) as Hlen.
    rewrite length_replicate in Hlen.
    exists (trace s1), args, (heap_top s1). split_and!; [done|done|done|].
    intros i D HD.
    destruct (eval_arguments_visits _ _ (Resolve_in_post fuel') _ _ _ _ _ i D Hargs)
      as (sd & q & sd' & Hrd & Hmd & Hstd & _ & Hq); [|done|].
    { apply valid_order_covers; [done|]. by eapply lookup_lt_Some. }
    cbn in Hmd, Hstd.
    rewrite Hq; [|by apply valid_order_NoDup|by rewrite length_replicate].
    pose proof (Resolve_in_absent_iff _ _ _ _ _ Hrd) as Hiff.
    rewrite Hmd, Hstd in Hiff.
    split.
    + rewrite <-Hiff. split; [by intros [= ->]|by intros ->].
    + intros fuel2 s2 s2' Hm2 Hst2 Hr2.
      pose proof (Resolve_in_absent_iff _ _ _ _ _ Hr2) as Hiff2.
      rewrite Hm2, Hst2 in Hiff2. f_equal. apply Hiff, Hiff2. done.
  - by eapply Resolve_in_throw.
  - by eapply Resolve_in_fuel in Hfuel; rewrite Hr in Hfuel.
Qed.

(** C5.  An interface registered with an instance binding to handle [h]
    resolves to [h] itself: at top level, whatever the allocator has done in
    the meantime, and wherever it is resolved as a dependency in the course of
    any top-level resolve on the container. *)
Theorem instance_resolves_to_its_handle (c : gmap nat factory_value) (key : nat)
    (h : option nat) :
  c !! key = Some (instance_factory h) →
  (∀ heap, Resolve' key c heap
           = (Ret h, Machine c [] heap [EvCall key []; EvReturn key [] h])) ∧
  (∀ k heap al p, EvReturn key al p ∈ trace (Resolve' k c heap).2 → p = h) ∧
  (∀ fuel s, m_factoryList s = c → stack_ok c (ancestor_list s) →
     Resolve_in' (S fuel) key s
     = (Ret h, logged (EvReturn key (ancestor_list s) h)
                 (logged (EvCall key (ancestor_list s)) s))).
Proof.
  intros Hk. split_and!.
  - intros heap. unfold Resolve. rewrite Resolve_in_S. cbn. by rewrite Hk.
  - intros k heap al p Hev.
    pose proof (Resolve_events_ok k c heap) as Hok. rewrite Forall_forall in Hok.
    apply Hok in Hev. inversion Hev as [| |? ? Hst Hin| | |]; subst; try congruence.
    destruct Hst as [_ Hty]. rewrite Forall_forall in Hty. destruct (Hty _ Hin) as (T & deps & ?). congruence.
  - intros fuel s Hc [_ Hty]. rewrite Resolve_in_S. cbn zeta. rewrite Hc, Hk.
    rewrite bool_decide_eq_false_2.
    + unfold invoke, ret, logged, popped, pushed. cbn. by rewrite !removelast_last.
    + intros Hin. rewrite Forall_forall in Hty.
      destruct (Hty _ Hin) as (T & deps & ?). congruence.
Qed.

(** C6.  An interface registered with a type binding is constructed anew by
    every top-level resolve: the call ends in a handle to an object allocated
    during that call (or in a constructor's exception), the container keeps
    nothing of it, and the handles of two successive resolves differ. *)
Theorem type_binding_constructs_anew (c : gmap nat factory_value) (key T : nat)
    (deps : list nat) (h0 h1 : nat) (o1 o2 : outcome (option nat)) (s1 s2 : machine) :
  c !! key = Some (type_factory T deps) →
  Resolve' key c h0 = (o1, s1) →
  heap_top s1 ≤ h1 →
  Resolve' key (m_factoryList s1) h1 = (o2, s2) →
  m_factoryList s1 = c ∧
  fresh_or_thrown ctor key T h0 o1 s1 ∧
  fresh_or_thrown ctor key T h1 o2 s2 ∧
  (∀ p1 p2, o1 = Ret p1 → o2 = Ret p2 → p1 ≠ p2).
Proof.
  intros Hk Hr1 Hle Hr2.
  assert (m_factoryList s1 = c) as Hm.
  { unfold Resolve in Hr1. by apply Resolve_in_post in Hr1 as (-> & _). }
  rewrite Hm in Hr2.
  pose proof (Resolve_type_fresh _ _ _ _ _ _ _ Hk Hr1) as Hf1.
  pose proof (Resolve_type_fresh _ _ _ _ _ _ _ Hk Hr2) as Hf2.
  split_and!; [done|done|done|].
  intros p1 p2 -> ->.
  destruct Hf1 as (tr1 & args1 & a1 & -> & Ha1 & _).
  destruct Hf2 as (tr2 & args2 & a2 & -> & Ha2 & _).
  intros [= ->]. lia.
Qed.

(** C7.  Registering a factory for an interface, by type or by instance,
    replaces whatever was registered for it and touches no other interface;
    after two type registrations in a row a resolve constructs the second
    implementation; and after any history of calls the registry holds each
    interface at most once, with exactly one factory for each interface it
    holds. *)
Theorem registration_replaces (c : gmap nat factory_value) (key : nat) :
  (∀ f, RegisterFactory key f c !! key = Some f) ∧
  (∀ f k, k ≠ key → RegisterFactory key f c !! k = c !! k) ∧
  (∀ T deps, RegisterType key T deps c !! key = Some (type_factory T deps)) ∧
  (∀ h, RegisterInstance key h c !! key = Some (instance_factory h)) ∧
  (∀ Ta depsa Tb depsb heap,
     let c2 := RegisterType key Tb depsb (RegisterType key Ta depsa c) in
     c2 !! key = Some (type_factory Tb depsb) ∧
     fresh_or_thrown ctor key Tb heap (Resolve' key c2 heap).1 (Resolve' key c2 heap).2) ∧
  (∀ ops, NoDup (map_to_list (run_ops ops)).*1) ∧
  (∀ ops k g, run_ops ops !! k = Some g →
     ∀ g', (k, g') ∈ map_to_list (run_ops ops) ↔ g' = g).
Proof.
  split_and!.
  - intros f. by rewrite RegisterFactory_lookup, decide_True.
  - intros f k Hne. by rewrite RegisterFactory_lookup, decide_False.
  - intros T deps. unfold RegisterType. by rewrite RegisterFactory_lookup, decide_True.
  - intros h. unfold RegisterInstance. by rewrite RegisterFactory_lookup, decide_True.
  - intros Ta depsa Tb depsb heap c2.
    assert (c2 !! key = Some (type_factory Tb depsb)) as Hk.
    { unfold c2, RegisterType. by rewrite RegisterFactory_lookup, decide_True. }
    split; [done|]. eapply Resolve_type_fresh; [exact Hk|]. by destruct (Resolve' _ _ _).
  - intros ops. apply NoDup_fst_map_to_list.
  - intros ops k g Hg g'. rewrite elem_of_map_to_list, Hg. split; [by intros [= ->]|by intros ->].
Qed.

(** C8.  An interface that no call ever named, or that was last named by an
    [Unregister], resolves to the absent marker by a plain return, at top
    level and nested alike; and [Unregister] of an interface that is not
    registered changes nothing, so a second [Unregister] in a row is a
    no-op. *)
Theorem unregistered_resolves_absent (ops : list registry_op) (key : nat) :
  last_touch key ops = None ∨ last_touch key ops = Some (OpUnregister key) →
  run_ops ops !! key = None ∧
  (∀ heap, Resolve' key (run_ops ops) heap
           = (Ret None, Machine (run_ops ops) [] heap
                          [EvCall key []; EvReturn key [] None])) ∧
  (∀ fuel s, m_factoryList s = run_ops ops →
     Resolve_in' (S fuel) key s
     = (Ret None, logged (EvReturn key (ancestor_list s) None)
                    (logged (EvCall key (ancestor_list s)) s))) ∧
  (∀ c, c !! key = None → Unregister key c = c) ∧
  (∀ c, Unregister key (Unregister key c) = Unregister key c) ∧
  run_ops (ops ++ [OpUnregister key; OpUnregister key])
    = run_ops (ops ++ [OpUnregister key]).
Proof.
  intros Hlast.
  assert (run_ops ops !! key = None) as Hk.
  { rewrite run_ops_lookup. by destruct Hlast as [->| ->]. }
  assert (∀ c, c !! key = None → Unregister key c = c) as Hnoop.
  { intros c Hc. unfold Unregister. by rewrite Hc. }
  assert (∀ c, Unregister key (Unregister key c) = Unregister key c) as Hidem.
  { intros c. apply Hnoop. by rewrite Unregister_lookup, decide_True. }
  split_and!; [done| | |done|done|].
  - intros heap. unfold Resolve. rewrite Resolve_in_S. cbn. by rewrite Hk.
  - intros fuel s Hc. rewrite Resolve_in_S. cbn zeta. by rewrite Hc, Hk.
  - replace (ops ++ [OpUnregister key; OpUnregister key])
      with ((ops ++ [OpUnregister key]) ++ [OpUnregister key]) by trace_eq.
    rewrite (run_ops_snoc (ops ++ _)), (run_ops_snoc ops). cbn. apply Hidem.
Qed.

(** C9.  A top-level resolve terminates, whatever the registry holds and
    whichever interface is asked for: the recursion budget of one more than
    the number of registered interfaces is never exhausted, a larger budget
    changes nothing, and a deeper activation cannot run out as long as its
    budget exceeds the number of registered interfaces not yet on the
    ancestor list.  Every ancestor list that occurs is free of duplicates,
    holds registered interfaces only, and is no longer than the registry. *)
Theorem Resolve_terminates (key : nat) (c : gmap nat factory_value) (heap : nat) :
  (Resolve' key c heap).1 ≠ OutOfFuel ∧
  (∀ extra, Resolve_in' (S (size c) + extra) key (Machine c [] heap [])
            = Resolve' key c heap) ∧
  (∀ fuel s, remaining (m_factoryList s) (ancestor_list s) < fuel →
     (Resolve_in' fuel key s).1 ≠ OutOfFuel) ∧
  (∀ al, remaining c al ≤ size c) ∧
  Forall (stack_bounded c) (trace (Resolve' key c heap).2).
Proof.
  pose proof (Resolve_no_OutOfFuel key c heap) as Hfuel. split_and!; [done| | | |].
  - intros extra. destruct (Resolve' key c heap) as [o s'] eqn:Hr.
    eapply Resolve_in_more_fuel; [exact Hr|done|lia].
  - intros fuel s. apply Resolve_in_fuel.
  - intros al. unfold remaining. rewrite <-size_dom. apply subseteq_size.
    intros k. rewrite elem_of_difference. tauto.
  - eapply Forall_impl; [apply Resolve_events_ok|]. apply event_ok_bounded.
Qed.

(** C10.  No resolve, top-level or nested, returning or throwing, changes the
    registry: the mapping after the call is the mapping before it. *)
Theorem Resolve_leaves_registry (fuel : nat) (key : nat) (s : machine)
    (c : gmap nat factory_value) (heap : nat) :
  m_factoryList (Resolve_in' fuel key s).2 = m_factoryList s ∧
  m_factoryList (Resolve' key c heap).2 = c.
Proof.
  split.
  - destruct (Resolve_in' fuel key s) as [o s'] eqn:Hr. cbn.
    by apply Resolve_in_post in Hr as (-> & _).
  - unfold Resolve. destruct (Resolve_in' _ key _) as [o s'] eqn:Hr. cbn.
    by apply Resolve_in_post in Hr as (-> & _).
Qed.

End ResolverFacts.

(** ** Concrete containers *)

(** The indirect cycle: [IA] resolves to the [TA] numbered [1], built on a
    [TB] whose own [IA] was cut off by the guard. *)
Lemma cycle_is_cut_below_the_top_witness :
  valid_order left_to_right ∧
  on_cycle two_cycle IA ∧
  Resolve left_to_right ctor_nothrow IA two_cycle 0
    = (Ret (Some 1), (Resolve left_to_right ctor_nothrow IA two_cycle 0).2) ∧
  (((∃ a, Some 1 = Some a ∧ 0 ≤ a) ∧
    ancestor_list (Resolve left_to_right ctor_nothrow IA two_cycle 0).2 = [] ∧
    guard_fired two_cycle (trace (Resolve left_to_right ctor_nothrow IA two_cycle 0).2)) ∧
   (∃ T deps, two_cycle !! IA = Some (type_factory T deps) ∧
              fresh_or_thrown ctor_nothrow IA T 0 (Ret (Some 1))
                (Resolve left_to_right ctor_nothrow IA two_cycle 0).2) ∧
   cut_from two_cycle IA IA
     (trace (Resolve left_to_right ctor_nothrow IA two_cycle 0).2)).
Proof.
  assert (on_cycle two_cycle IA) as Hcyc.
  { apply (tc_l _ IA IB IA).
    - exists TA, [IB]. split; [reflexivity|]. apply list_elem_of_singleton. reflexivity.
    - apply tc_once. exists TB, [IA]. split; [reflexivity|].
      apply list_elem_of_singleton. reflexivity. }
  split; [exact left_to_right_valid|]. split; [exact Hcyc|]. split; [reflexivity|].
  apply (cycle_is_cut_below_the_top left_to_right ctor_nothrow two_cycle IA 0 (Some 1) _
           left_to_right_valid Hcyc).
  reflexivity.
Defined.

(** The direct cycle [RegisterType<IA, TA, IA>()]: the resolve of [IA] does
    not return the absent marker but the [TA] numbered [0], whose constructor
    received the absent marker.  So not every resolve of an interface on a
    cycle is absent. *)
Lemma direct_cycle_resolves_to_an_object :
  on_cycle self_cycle IA ∧
  Resolve left_to_right ctor_nothrow IA self_cycle 0
    = (Ret (Some 0),
       Machine self_cycle [] 1
         [EvCall IA []; EvCall IA [IA]; EvReturn IA [IA] None;
          EvConstruct TA [None] (inr 0); EvReturn IA [] (Some 0)]) ∧
  ¬ (∀ arg_order ctor c key heap,
       on_cycle c key → (Resolve arg_order ctor key c heap).1 = Ret None).
Proof.
  assert (on_cycle self_cycle IA) as Hcyc.
  { apply tc_once. exists TA, [IA]. split; [reflexivity|].
    apply list_elem_of_singleton. reflexivity. }
  split; [exact Hcyc|]. split; [reflexivity|].
  intros Hclaim. specialize (Hclaim left_to_right ctor_nothrow self_cycle IA 0 Hcyc).
  discriminate Hclaim.
Qed.

(** Left-to-right evaluation on a [TA] taking an [IB] and an [IC]. *)
Lemma dependencies_resolved_then_constructed_witness :
  valid_order left_to_right ∧
  (m_factoryList (fresh_machine fan 0)) !! IA = Some (type_factory TA [IB; IC]) ∧
  (IA ∉ ancestor_list (fresh_machine fan 0)) ∧
  Resolve_in left_to_right ctor_nothrow 4 IA (fresh_machine fan 0)
    = (Ret (Some 2),
       (Resolve_in left_to_right ctor_nothrow 4 IA (fresh_machine fan 0)).2) ∧
  ∃ body args a,
    Some 2 = Some a ∧ length args = length [IB; IC] ∧
    trace (Resolve_in left_to_right ctor_nothrow 4 IA (fresh_machine fan 0)).2
      = trace (fresh_machine fan 0) ++ EvCall IA (ancestor_list (fresh_machine fan 0)) :: body
          ++ [EvConstruct TA args (inr a);
              EvReturn IA (ancestor_list (fresh_machine fan 0)) (Some a)] ∧
    calls_at (ancestor_list (fresh_machine fan 0) ++ [IA]) body
      = omap ([IB; IC] !!.) (left_to_right (length [IB; IC])) ∧
    returns_at (ancestor_list (fresh_machine fan 0) ++ [IA]) body
      = omap (zip [IB; IC] args !!.) (left_to_right (length [IB; IC])) ∧
    calls_at (ancestor_list (fresh_machine fan 0) ++ [IA]) body ≡ₚ [IB; IC] ∧
    returns_at (ancestor_list (fresh_machine fan 0) ++ [IA]) body ≡ₚ zip [IB; IC] args ∧
    (left_to_right (length [IB; IC]) = seq 0 (length [IB; IC]) →
       calls_at (ancestor_list (fresh_machine fan 0) ++ [IA]) body = [IB; IC] ∧
       returns_at (ancestor_list (fresh_machine fan 0) ++ [IA]) body = zip [IB; IC] args).
Proof.
  split; [exact left_to_right_valid|]. split; [reflexivity|].
  split; [apply not_elem_of_nil|]. split; [reflexivity|].
  apply (dependencies_resolved_then_constructed left_to_right ctor_nothrow 4 IA
           (fresh_machine fan 0) TA [IB; IC] (Some 2) _ left_to_right_valid).
  - reflexivity.
  - apply not_elem_of_nil.
  - reflexivity.
Defined.

(** Right-to-left evaluation on the same container: [IC] is resolved before
    [IB], although [TA] declares [IB] first, while the handles still reach the
    constructor in declaration order.  So the nested resolves do not always
    run in declaration order. *)
Lemma right_to_left_resolves_last_dependency_first :
  calls_at [IA] (trace (Resolve right_to_left ctor_nothrow IA fan 0).2) = [IC; IB] ∧
  trace (Resolve right_to_left ctor_nothrow IA fan 0).2
    = [EvCall IA [];
       EvCall IC [IA]; EvConstruct TC [] (inr 0); EvReturn IC [IA] (Some 0);
       EvCall IB [IA]; EvConstruct TB [] (inr 1); EvReturn IB [IA] (Some 1);
       EvConstruct TA [Some 1; Some 0] (inr 2); EvReturn IA [] (Some 2)] ∧
  ¬ (∀ arg_order ctor c key T deps heap,
       valid_order arg_order →
       c !! key = Some (type_factory T deps) →
       calls_at [key] (trace (Resolve arg_order ctor key c heap).2) = deps).
Proof.
  split; [reflexivity|]. split; [reflexivity|].
  intros Hclaim.
  specialize (Hclaim right_to_left ctor_nothrow fan IA TA [IB; IC] 0
                right_to_left_valid eq_refl).
  discriminate Hclaim.
Qed.

(** A constructor that throws: the exception leaves [IA] on the list. *)
Lemma stack_restored_on_return_only_witness :
  Resolve_in left_to_right ctor_throws 2 IA (fresh_machine leaf 0)
    = (Throw 7, Machine leaf [IA] 0 [EvCall IA []; EvConstruct TA [] (inl 7)]) ∧
  ((∃ rest, [IA] = [] ++ IA :: rest) ∧
   (∃ tr, [EvCall IA []; EvConstruct TA [] (inl 7)] = [] ++ tr ∧ Forall (below []) tr) ∧
   (∀ key2 heap2,
      Resolve left_to_right ctor_throws key2 leaf heap2
      = Resolve_in left_to_right ctor_throws (S (size leaf)) key2 (Machine leaf [] heap2 []))).
Proof.
  split; [reflexivity|].
  apply (stack_restored_on_return_only left_to_right ctor_throws 2 IA (fresh_machine leaf 0)
           (Throw 7) (Machine leaf [IA] 0 [EvCall IA []; EvConstruct TA [] (inl 7)])).
  reflexivity.
Defined.

(** When the constructor throws, control leaves the nested resolve with [IA]
    still on the ancestor list.  So the list is not restored on every exit
    path. *)
Lemma throw_leaves_interface_on_stack :
  Resolve_in left_to_right ctor_throws 2 IA (fresh_machine leaf 0)
    = (Throw 7, Machine leaf [IA] 0 [EvCall IA []; EvConstruct TA [] (inl 7)]) ∧
  ¬ (∀ arg_order ctor fuel key s o s',
       Resolve_in arg_order ctor fuel key s = (o, s') →
       ancestor_list s' = ancestor_list s).
Proof.
  split; [reflexivity|].
  intros Hclaim.
  specialize (Hclaim left_to_right ctor_throws 2 IA (fresh_machine leaf 0) _ _ eq_refl).
  discriminate Hclaim.
Qed.

(** A [TA] whose dependency [IB] nobody registered is constructed on the
    absent marker. *)
Lemma absent_dependency_is_passed_on_witness :
  valid_order left_to_right ∧
  (m_factoryList (fresh_machine dangling 0)) !! IA = Some (type_factory TA [IB]) ∧
  (IA ∉ ancestor_list (fresh_machine dangling 0)) ∧
  remaining (m_factoryList (fresh_machine dangling 0))
    (ancestor_list (fresh_machine dangling 0)) < 2 ∧
  Resolve_in left_to_right ctor_nothrow 2 IA (fresh_machine dangling 0)
    = (Ret (Some 0),
       Machine dangling [] 1
         [EvCall IA []; EvCall IB [IA]; EvReturn IB [IA] None;
          EvConstruct TA [None] (inr 0); EvReturn IA [] (Some 0)]) ∧
  ∃ tr args a,
    Some 0 = Some a ∧ length args = length [IB] ∧
    [EvCall IA []; EvCall IB [IA]; EvReturn IB [IA] None;
     EvConstruct TA [None] (inr 0); EvReturn IA [] (Some 0)]
      = tr ++ [EvConstruct TA args (inr a); EvReturn IA [] (Some a)] ∧
    ∀ i D, [IB] !! i = Some D →
      (args !! i = Some None ↔ absent_here dangling ([] ++ [IA]) D) ∧
      (∀ fuel2 s2 s2',
         m_factoryList s2 = dangling →
         ancestor_list s2 = [] ++ [IA] →
         Resolve_in left_to_right ctor_nothrow fuel2 D s2 = (Ret None, s2') →
         args !! i = Some None).
Proof.
  split; [exact left_to_right_valid|]. split; [reflexivity|].
  split; [apply not_elem_of_nil|]. split; [vm_compute; lia|]. split; [reflexivity|].
  apply (absent_dependency_is_passed_on left_to_right ctor_nothrow 2 IA
           (fresh_machine dangling 0) TA [IB] (Ret (Some 0))
           (Machine dangling [] 1
              [EvCall IA []; EvCall IB [IA]; EvReturn IB [IA] None;
               EvConstruct TA [None] (inr 0); EvReturn IA [] (Some 0)])
           left_to_right_valid).
  - reflexivity.
  - apply not_elem_of_nil.
  - vm_compute. lia.
  - reflexivity.
Defined.

(** The shared instance bound to [IB], also as a dependency of [TA]. *)
Lemma instance_resolves_to_its_handle_witness :
  shared_dep !! IB = Some (instance_factory (Some 100)) ∧
  ((∀ heap, Resolve left_to_right ctor_nothrow IB shared_dep heap
            = (Ret (Some 100),
               Machine shared_dep [] heap [EvCall IB []; EvReturn IB [] (Some 100)])) ∧
   (∀ k heap al p,
      EvReturn IB al p ∈ trace (Resolve left_to_right ctor_nothrow k shared_dep heap).2 →
      p = Some 100) ∧
   (∀ fuel s, m_factoryList s = shared_dep → stack_ok shared_dep (ancestor_list s) →
      Resolve_in left_to_right ctor_nothrow (S fuel) IB s
      = (Ret (Some 100), logged (EvReturn IB (ancestor_list s) (Some 100))
                           (logged (EvCall IB (ancestor_list s)) s)))).
Proof.
  split; [reflexivity|].
  apply (instance_resolves_to_its_handle left_to_right ctor_nothrow shared_dep IB (Some 100)).
  reflexivity.
Defined.

(** Two successive resolves of [IA] in the container [fan]. *)
Lemma type_binding_constructs_anew_witness :
  fan !! IA = Some (type_factory TA [IB; IC]) ∧
  Resolve left_to_right ctor_nothrow IA fan 0
    = (Ret (Some 2), (Resolve left_to_right ctor_nothrow IA fan 0).2) ∧
  heap_top (Resolve left_to_right ctor_nothrow IA fan 0).2 ≤ 3 ∧
  Resolve left_to_right ctor_nothrow IA
      (m_factoryList (Resolve left_to_right ctor_nothrow IA fan 0).2) 3
    = (Ret (Some 5),
       (Resolve left_to_right ctor_nothrow IA
          (m_factoryList (Resolve left_to_right ctor_nothrow IA fan 0).2) 3).2) ∧
  (m_factoryList (Resolve left_to_right ctor_nothrow IA fan 0).2 = fan ∧
   fresh_or_thrown ctor_nothrow IA TA 0 (Ret (Some 2))
     (Resolve left_to_right ctor_nothrow IA fan 0).2 ∧
   fresh_or_thrown ctor_nothrow IA TA 3 (Ret (Some 5))
     (Resolve left_to_right ctor_nothrow IA
        (m_factoryList (Resolve left_to_right ctor_nothrow IA fan 0).2) 3).2 ∧
   (∀ p1 p2, Ret (Some 2) = Ret p1 → Ret (Some 5) = Ret p2 → p1 ≠ p2)).
Proof.
  split; [reflexivity|]. split; [reflexivity|]. split; [vm_compute; lia|].
  split; [reflexivity|].
  apply (type_binding_constructs_anew left_to_right ctor_nothrow fan IA TA [IB; IC] 0 3
           (Ret (Some 2)) (Ret (Some 5))).
  - reflexivity.
  - reflexivity.
  - vm_compute. lia.
  - reflexivity.
Defined.

(** The history [RegisterType<IA, TA>(); Unregister<IA>()]. *)
Lemma unregistered_resolves_absent_witness :
  (last_touch IA [OpRegisterType IA TA []; OpUnregister IA] = None ∨
   last_touch IA [OpRegisterType IA TA []; OpUnregister IA] = Some (OpUnregister IA)) ∧
  (run_ops [OpRegisterType IA TA []; OpUnregister IA] !! IA = None ∧
   (∀ heap, Resolve left_to_right ctor_nothrow IA
              (run_ops [OpRegisterType IA TA []; OpUnregister IA]) heap
            = (Ret None, Machine (run_ops [OpRegisterType IA TA []; OpUnregister IA]) [] heap
                           [EvCall IA []; EvReturn IA [] None])) ∧
   (∀ fuel s, m_factoryList s = run_ops [OpRegisterType IA TA []; OpUnregister IA] →
      Resolve_in left_to_right ctor_nothrow (S fuel) IA s
      = (Ret None, logged (EvReturn IA (ancestor_list s) None)
                     (logged (EvCall IA (ancestor_list s)) s))) ∧
   (∀ c, c !! IA = None → Unregister IA c = c) ∧
   (∀ c, Unregister IA (Unregister IA c) = Unregister IA c) ∧
   run_ops ([OpRegisterType IA TA []; OpUnregister IA] ++ [OpUnregister IA; OpUnregister IA])
     = run_ops ([OpRegisterType IA TA []; OpUnregister IA] ++ [OpUnregister IA])).
Proof.
  split; [right; reflexivity|].
  apply (unregistered_resolves_absent left_to_right ctor_nothrow
           [OpRegisterType IA TA []; OpUnregister IA] IA).
  right. reflexivity.
Defined.

(** ** The scenarios of the specification, evaluated *)

(** An empty container resolves nothing. *)
Example scenario_empty_container :
  (Resolve left_to_right ctor_nothrow IA ∅ 0).1 = Ret None.
Proof. reflexivity. Qed.

(** An instance binding hands out the registered handle, twice. *)
Example scenario_leaf_instance :
  let c := RegisterInstance IA (Some 100) ∅ in
  (Resolve left_to_right ctor_nothrow IA c 0).1 = Ret (Some 100) ∧
  (Resolve left_to_right ctor_nothrow IA (m_factoryList (Resolve left_to_right ctor_nothrow IA c 0).2) 0).1
    = Ret (Some 100).
Proof. split; reflexivity. Qed.

(** A two-level graph: each resolve of [IA] builds a new [TB], then a new [TA]
    on it. *)
Example scenario_two_level :
  Resolve left_to_right ctor_nothrow IA two_level 0
    = (Ret (Some 1),
       Machine two_level [] 2
         [EvCall IA []; EvCall IB [IA]; EvConstruct TB [] (inr 0);
          EvReturn IB [IA] (Some 0); EvConstruct TA [Some 0] (inr 1);
          EvReturn IA [] (Some 1)]) ∧
  Resolve left_to_right ctor_nothrow IA two_level 2
    = (Ret (Some 3),
       Machine two_level [] 4
         [EvCall IA []; EvCall IB [IA]; EvConstruct TB [] (inr 2);
          EvReturn IB [IA] (Some 2); EvConstruct TA [Some 2] (inr 3);
          EvReturn IA [] (Some 3)]).
Proof. split; reflexivity. Qed.

(** A shared singleton dependency: two different [TA], both built on the
    instance at [100]. *)
Example scenario_shared_singleton :
  Resolve left_to_right ctor_nothrow IA shared_dep 0
    = (Ret (Some 0),
       Machine shared_dep [] 1
         [EvCall IA []; EvCall IB [IA]; EvReturn IB [IA] (Some 100);
          EvConstruct TA [Some 100] (inr 0); EvReturn IA [] (Some 0)]) ∧
  Resolve left_to_right ctor_nothrow IA shared_dep 1
    = (Ret (Some 1),
       Machine shared_dep [] 2
         [EvCall IA []; EvCall IB [IA]; EvReturn IB [IA] (Some 100);
          EvConstruct TA [Some 100] (inr 1); EvReturn IA [] (Some 1)]).
Proof. split; reflexivity. Qed.

(** After a resolve through the direct cycle, an unrelated interface still
    resolves. *)
Example scenario_direct_cycle_then_unrelated :
  let c := RegisterType IB TB [] self_cycle in
  (Resolve left_to_right ctor_nothrow IA c 0).1 = Ret (Some 0) ∧
  Resolve left_to_right ctor_nothrow IB
    (m_factoryList (Resolve left_to_right ctor_nothrow IA c 0).2) 1
    = (Ret (Some 1),
       Machine c [] 2 [EvCall IB []; EvConstruct TB [] (inr 1); EvReturn IB [] (Some 1)]).
Proof. split; reflexivity. Qed.

(** The indirect cycle: [TB] is built on the absent marker, [TA] on that
    [TB]. *)
Example scenario_indirect_cycle :
  Resolve left_to_right ctor_nothrow IA two_cycle 0
    = (Ret (Some 1),
       Machine two_cycle [] 2
         [EvCall IA []; EvCall IB [IA]; EvCall IA [IA; IB]; EvReturn IA [IA; IB] None;
          EvConstruct TB [None] (inr 0); EvReturn IB [IA] (Some 0);
          EvConstruct TA [Some 0] (inr 1); EvReturn IA [] (Some 1)]).
Proof. reflexivity. Qed.

(** The indirect cycle with constructors that reject an absent handle: the
    exception of [TB]'s constructor reaches the caller, and both interfaces
    are still on the ancestor list when it does. *)
Example scenario_indirect_cycle_strict :
  Resolve left_to_right ctor_strict IA two_cycle 0
    = (Throw 1,
       Machine two_cycle [IA; IB] 0
         [EvCall IA []; EvCall IB [IA]; EvCall IA [IA; IB]; EvReturn IA [IA; IB] None;
          EvConstruct TB [None] (inl 1)]).
Proof. reflexivity. Qed.

(** Re-registration, then removal. *)
Example scenario_reregistration :
  let c1 := RegisterType IA TA [] ∅ in
  let c2 := RegisterType IA TB [] c1 in
  let c3 := Unregister IA c2 in
  Resolve left_to_right ctor_nothrow IA c1 0
    = (Ret (Some 0),
       Machine c1 [] 1 [EvCall IA []; EvConstruct TA [] (inr 0); EvReturn IA [] (Some 0)]) ∧
  Resolve left_to_right ctor_nothrow IA c2 1
    = (Ret (Some 1),
       Machine c2 [] 2 [EvCall IA []; EvConstruct TB [] (inr 1); EvReturn IA [] (Some 1)]) ∧
  Resolve left_to_right ctor_nothrow IA c3 2
    = (Ret None, Machine c3 [] 2 [EvCall IA []; EvReturn IA [] None]).
Proof. split_and!; reflexivity. Qed.

(** ** Further properties of the registry *)

(** X1.  After any history of calls on a new container, what is registered
    for an interface is decided by the last call that named it: the factory
    of that registration, or nothing if it was an [Unregister] or no call
    named the interface.  Calls that do not name an interface leave its
    entry alone. *)
Theorem history_decides_registry (ops : list registry_op) (key : nat) :
  run_ops ops !! key = last_touch key ops ≫= op_factory ∧
  (key ∈ dom (run_ops ops)
     ↔ ∃ o, last_touch key ops = Some o ∧ is_Some (op_factory o)) ∧
  (∀ more, Forall (λ o, op_target o ≠ key) more →
     run_ops (ops ++ more) !! key = run_ops ops !! key).
Proof.
  split_and!.
  - apply run_ops_lookup.
  - rewrite elem_of_dom, run_ops_lookup. destruct (last_touch key ops) as [o|]; cbn.
    + split; [intros Hf; by exists o|by intros (o' & [= <-] & Hf)].
    + split; [by intros [? ?]|by intros (o' & ? & _)].
  - intros more Hmore. rewrite !run_ops_lookup. unfold last_touch.
    rewrite filter_app. replace (filter _ more) with ([] : list registry_op).
    + by rewrite app_nil_r.
    + symmetry. induction Hmore as [|o more Ho _ IH]; [done|].
      rewrite filter_cons. by destruct (decide (op_target o = key)).
Qed.

(** X2.  Registering and then unregistering an interface leaves the registry
    as an [Unregister] alone would; on a registry that did not hold the
    interface the pair is the identity, and registering the factory that is
    already there changes nothing. *)
Theorem register_unregister_round_trip (key : nat) (f : factory_value)
    (c : gmap nat factory_value) :
  Unregister key (RegisterFactory key f c) = Unregister key c ∧
  (c !! key = None → Unregister key (RegisterFactory key f c) = c) ∧
  (c !! key = Some f → RegisterFactory key f c = c).
Proof.
  unfold RegisterFactory. rewrite !Unregister_delete. split_and!.
  - by rewrite delete_insert_eq, delete_delete_eq.
  - intros Hc. by rewrite delete_insert_eq, delete_delete_eq, delete_id.
  - intros Hc. by rewrite insert_delete_eq, insert_id.
Qed.

(** X3.  A registration overwrites: of two registrations of one interface in
    a row only the second counts, and the [Unregister] inside a registration
    changes nothing that the assignment would not.  A registration grows the
    registry by one entry when the interface is new and by none otherwise; an
    [Unregister] shrinks it by one entry when the interface was there. *)
Theorem registration_overwrites (key : nat) (f1 f2 : factory_value)
    (c : gmap nat factory_value) :
  RegisterFactory key f2 (RegisterFactory key f1 c) = RegisterFactory key f2 c ∧
  RegisterFactory key f1 c = <[key := f1]> c ∧
  size (RegisterFactory key f1 c)
    = match c !! key with Some _ => size c | None => S (size c) end ∧
  size (Unregister key c)
    = match c !! key with Some _ => size c - 1 | None => size c end.
Proof.
  assert (∀ f c', RegisterFactory key f c' = <[key := f]> c') as Hreg.
  { intros f c'. unfold RegisterFactory. by rewrite Unregister_delete, insert_delete_eq. }
  split_and!.
  - by rewrite !Hreg, insert_insert_eq.
  - apply Hreg.
  - rewrite Hreg, map_size_insert. by destruct (c !! key).
  - rewrite Unregister_delete, map_size_delete. destruct (c !! key); cbn; lia.
Qed.

(** X4.  Calls that name different interfaces commute: two registrations, a
    registration and an [Unregister], or two [Unregister]s can be swapped
    without changing the registry. *)
Theorem calls_on_different_interfaces_commute (k1 k2 : nat) (f1 f2 : factory_value)
    (c : gmap nat factory_value) :
  k1 ≠ k2 →
  RegisterFactory k1 f1 (RegisterFactory k2 f2 c)
    = RegisterFactory k2 f2 (RegisterFactory k1 f1 c) ∧
  RegisterFactory k1 f1 (Unregister k2 c) = Unregister k2 (RegisterFactory k1 f1 c) ∧
  Unregister k1 (Unregister k2 c) = Unregister k2 (Unregister k1 c).
Proof.
  intros Hne.
  assert (∀ k f c', RegisterFactory k f c' = <[k := f]> c') as Hreg.
  { intros k f c'. unfold RegisterFactory. by rewrite Unregister_delete, insert_delete_eq. }
  rewrite !Hreg, !Unregister_delete. split_and!.
  - by apply insert_insert_ne.
  - by rewrite delete_insert_ne.
  - apply delete_delete.
Qed.

(** ** Further properties of the resolver *)

Section FurtherResolverFacts.

Variable arg_order : nat → list nat.
Variable ctor : nat → list (option nat) → option nat.

Local Abbreviation Resolve_in' := (Resolve_in arg_order ctor).
Local Abbreviation Resolve' := (Resolve arg_order ctor).

(** As [eval_arguments_preserves], for a property that only the resolves of
    the pack's own interfaces are known to preserve. *)
Lemma eval_arguments_preserves_in (resolve : nat → M (option nat)) (Arguments : list nat)
    (P : machine → Prop) (c : gmap nat factory_value) (st : list nat) (idxs : list nat) :
  (∀ D s o s', resolve D s = (o, s') → resolve_post D s o s') →
  (∀ D s o s', D ∈ Arguments → m_factoryList s = c → ancestor_list s = st →
     resolve D s = (o, s') → P s → P s') →
  ∀ slots s o s', m_factoryList s = c → ancestor_list s = st →
    eval_arguments resolve Arguments idxs slots s = (o, s') →
    P s → P s'.
Proof.
  intros Hpost Hres. induction idxs as [|i idxs IH]; intros slots s o s' Hc Hst; cbn.
  - by intros [= <- <-].
  - destruct (Arguments !! i) as [D|] eqn:HD; [|by apply IH].
    apply list_elem_of_lookup_2 in HD.
    unfold bind. destruct (resolve D s) as [[p|e|] s1] eqn:Hr.
    + intros Hev HP. pose proof (Hres _ _ _ _ HD Hc Hst Hr HP) as HP1.
      apply Hpost in Hr as (Hm1 & _ & Hst1 & _).
      eapply IH; [| |exact Hev|exact HP1]; congruence.
    + intros [= <- <-]. by eapply Hres.
    + intros [= <- <-]. by eapply Hres.
Qed.

(** X5.  The public [Resolve] hands back the absent marker exactly when
    nothing is registered for the interface or a null instance was registered
    for it.  A dependency cycle never makes the top-level result absent. *)
Theorem Resolve_absent_iff (key : nat) (c : gmap nat factory_value) (heap : nat)
    (p : option nat) (s' : machine) :
  Resolve' key c heap = (Ret p, s') →
  p = None ↔ c !! key = None ∨ c !! key = Some (instance_factory None).
Proof.
  intros Hr. unfold Resolve in Hr.
  rewrite (Resolve_in_absent_iff _ _ _ _ _ _ _ Hr). unfold absent_here. cbn.
  split; [intros [?|[Hin|?]]|intros [?|?]]; try tauto.
  by apply elem_of_nil in Hin.
Qed.

(** X6.  The container raises nothing of its own.  An exception that leaves
    [Resolve] is the exception of a constructor, thrown as the last thing that
    happened; when no constructor throws, every resolve returns. *)
Theorem only_constructors_throw (key : nat) (c : gmap nat factory_value) (heap : nat) :
  (∀ e s', Resolve' key c heap = (Throw e, s') →
     thrown_by_constructor ctor e (trace s')) ∧
  ((∀ T args, ctor T args = None) →
     ∃ p s', Resolve' key c heap = (Ret p, s')).
Proof.
  split.
  - intros e s' Hr. by eapply Resolve_in_throw.
  - intros Hctor. pose proof (Resolve_no_OutOfFuel arg_order ctor key c heap) as Hfuel.
    destruct (Resolve' key c heap) as [[p|e|] s'] eqn:Hr; [by exists p, s'| |done].
    apply Resolve_in_throw in Hr as (tr0 & T & args & _ & Hthrow).
    by rewrite Hctor in Hthrow.
Qed.

Lemma alloc_ok_logged (h0 : nat) (ev : event) (s : machine) :
  (∀ T args a, ev ≠ EvConstruct T args (inr a)) →
  alloc_ok h0 s → alloc_ok h0 (logged ev s).
Proof.
  intros Hev [Hle Hc]. split; [done|]. cbn. unfold constructed in *.
  rewrite omap_app, Hc. cbn.
  destruct ev as [k al|k al p|T args [e|a]]; cbn; rewrite ?app_nil_r; try done.
  by destruct (Hev T args a).
Qed.

Lemma make_shared_alloc_ok (h0 : nat) (T : nat) (args : list (option nat))
    (s : machine) (o : outcome (option nat)) (s' : machine) :
  make_shared ctor T args s = (o, s') → alloc_ok h0 s → alloc_ok h0 s'.
Proof.
  unfold make_shared. intros Hmk [Hle Hc].
  destruct (ctor T args) as [e|]; injection Hmk as <- <-; (split; cbn; [lia|]);
    unfold constructed in *; rewrite omap_app, Hc; cbn.
  - by rewrite app_nil_r.
  - replace (S (heap_top s) - h0) with (S (heap_top s - h0)) by lia.
    rewrite seq_S. do 2 f_equal. lia.
Qed.

Lemma Resolve_in_alloc_ok (h0 : nat) (fuel : nat) :
  ∀ key s o s', Resolve_in' fuel key s = (o, s') → alloc_ok h0 s → alloc_ok h0 s'.
Proof.
  induction fuel as [|fuel IH]; intros key s o s'.
  - cbn. by intros [= <- <-].
  - rewrite Resolve_in_S. cbn zeta.
    destruct (m_factoryList s !! key) as [f|].
    2:{ intros [= <- <-] Hok. by do 2 (apply alloc_ok_logged; [done|]). }
    destruct (bool_decide (key ∈ ancestor_list s)).
    { intros [= <- <-] Hok. by do 2 (apply alloc_ok_logged; [done|]). }
    destruct f as [T deps|pInstance]; unfold invoke.
    + assert (∀ slots o1 s1,
        eval_arguments (Resolve_in' fuel) deps (arg_order (length deps)) slots
          (pushed key (logged (EvCall key (ancestor_list s)) s)) = (o1, s1) →
        alloc_ok h0 s → alloc_ok h0 s1) as Hargs_ok.
      { intros slots o1 s1 Hargs Hok.
        eapply (eval_arguments_preserves _ _ (Resolve_in_post arg_order ctor fuel)
                  (alloc_ok h0) (m_factoryList s) (ancestor_list s ++ [key]))
          in Hargs; [done| |by cbn|done|].
        - intros D s2 o2 s2' _ _. apply IH.
        - by apply (alloc_ok_logged h0 (EvCall key (ancestor_list s))). }
      unfold bind.
      destruct (eval_arguments _ _ _ _ _) as [[args|e|] s1] eqn:Hargs.
      * destruct (make_shared ctor T args s1) as [[p|e|] s2] eqn:Hmk;
          intros [= <- <-] Hok; apply Hargs_ok in Hargs; try done;
          apply (make_shared_alloc_ok _ _ _ _ _ _ Hmk) in Hargs; [|done|done].
        apply alloc_ok_logged; [done|]. exact Hargs.
      * intros [= <- <-] Hok. by eapply Hargs_ok.
      * intros [= <- <-] Hok. by eapply Hargs_ok.
    + cbn. intros [= <- <-] Hok. apply alloc_ok_logged; [done|].
      by apply (alloc_ok_logged h0 (EvCall key (ancestor_list s))).
Qed.

(** *** Nothing is shared between dependents *)

Lemma returns_own_construction_snoc (c : gmap nat factory_value) (tr : list event)
    (ev : event) :
  returns_own_construction c tr →
  (∀ k al a T deps, ev = EvReturn k al (Some a) → c !! k = Some (type_factory T deps) →
     ∃ tr0 args, tr = tr0 ++ [EvConstruct T args (inr a)] ∧
                 length args = length deps ∧ distinct_handles c deps args) →
  returns_own_construction c (tr ++ [ev]).
Proof.
  intros Htr Hev n k al a T deps Hn Hk.
  apply lookup_app_Some in Hn as [Hn|[Hlen Hn]].
  - destruct (Htr _ _ _ _ _ _ Hn Hk) as (m & args & -> & Hm & Hl & Hd).
    exists m, args. split_and!; [done| |done|done]. by apply lookup_app_l_Some.
  - destruct (n - length tr) as [|x] eqn:Hx; [|done]. injection Hn as ->.
    destruct (Hev _ _ _ _ _ eq_refl Hk) as (tr0 & args & -> & Hl & Hd).
    exists (length tr0), args. rewrite length_app in Hlen, Hx. cbn in Hlen, Hx.
    split_and!; [lia| |done|done]. rewrite <-(assoc_L (++)). by apply list_lookup_middle.
Qed.

Lemma constructed_once (tr : list event) :
  NoDup (constructed tr) →
  ∀ m n T1 T2 args1 args2 a,
    tr !! m = Some (EvConstruct T1 args1 (inr a)) →
    tr !! n = Some (EvConstruct T2 args2 (inr a)) →
    m = n.
Proof.
  assert (∀ tr n T args a, tr !! n = Some (EvConstruct T args (inr a)) →
            a ∈ constructed tr) as Hin.
  { intros tr0 n T args a Hn. unfold constructed. apply list_elem_of_omap.
    exists (EvConstruct T args (inr a)). split; [|done]. by eapply list_elem_of_lookup_2. }
  induction tr as [|ev tr IH]; intros Hnd m n T1 T2 args1 args2 a Hm Hn; [done|].
  assert (NoDup (constructed tr)) as Hnd'.
  { unfold constructed in *. cbn in Hnd. destruct ev as [| |T args [e|b]]; cbn in Hnd;
      try done. by apply NoDup_cons in Hnd as [_ ?]. }
  destruct m as [|m], n as [|n]; cbn in Hm, Hn.
  - done.
  - injection Hm as ->. apply Hin in Hn. unfold constructed in Hnd. cbn in Hnd.
    by apply NoDup_cons in Hnd as [? _].
  - injection Hn as ->. apply Hin in Hm. unfold constructed in Hnd. cbn in Hnd.
    by apply NoDup_cons in Hnd as [? _].
  - f_equal. by eapply IH.
Qed.

Lemma eval_arguments_distinct (resolve : nat → M (option nat)) (Arguments : list nat)
    (c : gmap nat factory_value) (idxs : list nat) :
  (∀ D s o s', resolve D s = (o, s') → resolve_post D s o s') →
  (∀ D s a s', type_bound c D → m_factoryList s = c →
     resolve D s = (Ret (Some a), s') → heap_top s ≤ a < heap_top s') →
  ∀ slots s args s',
    m_factoryList s = c →
    eval_arguments resolve Arguments idxs slots s = (Ret args, s') →
    handles_below c Arguments slots (heap_top s) →
    distinct_handles c Arguments slots →
    handles_below c Arguments args (heap_top s') ∧ distinct_handles c Arguments args.
Proof.
  intros Hpost Hfresh.
  induction idxs as [|i idxs IH]; intros slots s args s' Hc; cbn.
  - by intros [= <- <-].
  - destruct (Arguments !! i) as [D|] eqn:HD; [|by apply IH].
    unfold bind. destruct (resolve D s) as [[p|e|] s1] eqn:Hr; [|done|done].
    intros Hev Hbelow Hdist.
    pose proof (Hpost _ _ _ _ Hr) as (Hm1 & Hh1 & _).
    apply (IH (<[i:=p]> slots) s1 args s'); [congruence|exact Hev| |].
    + intros j D' a HD' Hty Hj.
      apply list_lookup_insert_Some in Hj as [(-> & -> & _)|[Hne Hj]].
      * assert (D' = D) as -> by congruence. by eapply Hfresh.
      * specialize (Hbelow j D' a HD' Hty Hj). lia.
    + intros j1 j2 D1 D2 a Hne HD1 HD2 Hty1 Hty2 Hj1 Hj2.
      apply list_lookup_insert_Some in Hj1 as [(Hi1 & Hp1 & _)|[Hne1 Hj1]];
        apply list_lookup_insert_Some in Hj2 as [(Hi2 & Hp2 & _)|[Hne2 Hj2]].
      * congruence.
      * subst i p. assert (D1 = D) as -> by congruence.
        specialize (Hbelow j2 D2 a HD2 Hty2 Hj2).
        pose proof (Hfresh _ _ _ _ Hty1 Hc Hr). lia.
      * subst i p. assert (D2 = D) as -> by congruence.
        specialize (Hbelow j1 D1 a HD1 Hty1 Hj1).
        pose proof (Hfresh _ _ _ _ Hty2 Hc Hr). lia.
      * by eapply (Hdist j1 j2).
Qed.

Lemma Resolve_in_fresh_handle (c : gmap nat factory_value) (fuel : nat) (D : nat)
    (s : machine) (a : nat) (s' : machine) :
  type_bound c D → m_factoryList s = c →
  Resolve_in' fuel D s = (Ret (Some a), s') → heap_top s ≤ a < heap_top s'.
Proof.
  intros (T & deps & HD) Hc Hr. rewrite <-Hc in HD.
  assert (D ∉ ancestor_list s) as Hal.
  { intros Hin. pose proof (Resolve_in_absent_iff _ _ _ _ _ _ _ Hr) as [_ Habs].
    discriminate Habs. by right; left. }
  destruct (Resolve_in_type_anatomy _ _ _ _ _ _ _ _ _ HD Hal Hr)
    as (body & args & a' & [= ->] & Hle & Htop & _). lia.
Qed.

Lemma Resolve_in_unshared (c : gmap nat factory_value) (fuel : nat) :
  ∀ key s o s', m_factoryList s = c →
    Resolve_in' fuel key s = (o, s') →
    returns_own_construction c (trace s) ∧ Forall (unshared_arguments c) (trace s) →
    returns_own_construction c (trace s') ∧ Forall (unshared_arguments c) (trace s').
Proof.
  induction fuel as [|fuel IH]; intros key s o s' Hc.
  - cbn. by intros [= <- <-].
  - rewrite Resolve_in_S. cbn zeta. rewrite Hc.
    assert (∀ s0, returns_own_construction c (trace s0) ∧
                    Forall (unshared_arguments c) (trace s0) →
              returns_own_construction c (trace (logged (EvCall key (ancestor_list s)) s0)) ∧
              Forall (unshared_arguments c)
                (trace (logged (EvCall key (ancestor_list s)) s0))) as Hcall.
    { intros s0 [Hown Hun]. cbn. split.
      - by apply returns_own_construction_snoc.
      - by rewrite Forall_app, Forall_singleton. }
    destruct (c !! key) as [f|] eqn:Hf.
    2:{ intros [= <- <-] Hok. apply Hcall in Hok as [Hown Hun]. cbn. split.
        - by apply returns_own_construction_snoc.
        - by rewrite Forall_app, Forall_singleton. }
    destruct (bool_decide (key ∈ ancestor_list s)) eqn:Hal.
    { intros [= <- <-] Hok. apply Hcall in Hok as [Hown Hun]. cbn. split.
      - by apply returns_own_construction_snoc.
      - by rewrite Forall_app, Forall_singleton. }
    destruct f as [T deps|pInstance]; unfold invoke.
    + unfold bind.
      destruct (eval_arguments _ _ _ _ _) as [[args|e|] s1] eqn:Hargs.
      * intros Hr Hok.
        pose proof (eval_arguments_length _ _ _ _ _ _ _ Hargs) as Hlen.
        rewrite length_replicate in Hlen.
        pose proof (eval_arguments_post _ _ (Resolve_in_post arg_order ctor fuel)
                      _ _ _ _ _ Hargs) as (_ & _ & _ & Hst1). cbn in Hst1.
        assert (distinct_handles c deps args) as Hdist.
        { refine (proj2 (eval_arguments_distinct _ _ c _
                             (Resolve_in_post arg_order ctor fuel) _ _ _ _ _ _ Hargs _ _)).
          - intros D s0 a s0'. apply Resolve_in_fresh_handle.
          - by cbn.
          - intros j D a _ _ Hj. apply lookup_replicate in Hj as [[=] _].
          - intros i j D D' a _ _ _ _ _ Hi. apply lookup_replicate in Hi as [[=] _]. }
        eapply (eval_arguments_preserves _ _ (Resolve_in_post arg_order ctor fuel)
                  (λ s, returns_own_construction c (trace s) ∧
                        Forall (unshared_arguments c) (trace s))
                  c (ancestor_list s ++ [key])) in Hargs as [Hown Hun];
          [| |by cbn|done|by apply Hcall].
        2:{ intros D s2 o2 s2' Hc2 _. by apply IH. }
        destruct (make_shared ctor T args s1) as [[p|e|] s2] eqn:Hmk;
          apply make_shared_post in Hmk as (_ & Hst2 & Ho2); [| |done].
        -- destruct Ho2 as (-> & _ & _ & Htr2). injection Hr as <- <-. cbn.
           rewrite Htr2. split.
           ++ apply returns_own_construction_snoc.
              ** by apply returns_own_construction_snoc.
              ** intros k al a T' deps' [= -> _ <-] Hk. rewrite Hf in Hk.
                 injection Hk as <- <-. exists (trace s1), args. by split_and!.
           ++ rewrite !Forall_app, !Forall_singleton. split_and!; [done| |done].
              by exists key, deps.
        -- destruct Ho2 as (_ & _ & Htr2). injection Hr as <- <-. rewrite Htr2. split.
           ++ by apply returns_own_construction_snoc.
           ++ rewrite Forall_app, Forall_singleton. split; [done|]. by exists key, deps.
      * intros [= <- <-] Hok.
        eapply (eval_arguments_preserves _ _ (Resolve_in_post arg_order ctor fuel)
                  (λ s, returns_own_construction c (trace s) ∧
                        Forall (unshared_arguments c) (trace s))
                  c (ancestor_list s ++ [key])) in Hargs;
          [done| |by cbn|done|by apply Hcall].
        intros D s2 o2 s2' Hc2 _. by apply IH.
      * intros [= <- <-] Hok.
        eapply (eval_arguments_preserves _ _ (Resolve_in_post arg_order ctor fuel)
                  (λ s, returns_own_construction c (trace s) ∧
                        Forall (unshared_arguments c) (trace s))
                  c (ancestor_list s ++ [key])) in Hargs;
          [done| |by cbn|done|by apply Hcall].
        intros D s2 o2 s2' Hc2 _. by apply IH.
    + cbn. intros [= <- <-] Hok. apply Hcall in Hok as [Hown Hun]. cbn. split.
      * apply returns_own_construction_snoc; [done|].
        intros k al a T deps [= -> _ _] Hk. congruence.
      * by rewrite Forall_app, Forall_singleton.
Qed.

(** X7.  Every construction of a resolve yields a new object, and nothing is
    cached or shared between dependents.  The objects constructed in the
    course of one top-level resolve, at any depth, are pairwise different,
    none existed when the resolve was called, and they are all the allocator
    handed out.  A handle that the resolve of a type-bound interface returns
    is the object of a construction of the bound class made just before that
    return, on one argument per declared dependency, so no two such resolves
    return the same object; and no constructor is handed the same object at
    two positions whose dependencies are bound to types. *)
Theorem constructions_are_new_objects (key : nat) (c : gmap nat factory_value)
    (heap : nat) :
  (constructed (trace (Resolve' key c heap).2)
     = seq heap (heap_top (Resolve' key c heap).2 - heap) ∧
   NoDup (constructed (trace (Resolve' key c heap).2)) ∧
   (∀ a, a ∈ constructed (trace (Resolve' key c heap).2) →
      heap ≤ a < heap_top (Resolve' key c heap).2)) ∧
  returns_own_construction c (trace (Resolve' key c heap).2) ∧
  (∀ i j k1 k2 al1 al2 a,
     trace (Resolve' key c heap).2 !! i = Some (EvReturn k1 al1 (Some a)) →
     trace (Resolve' key c heap).2 !! j = Some (EvReturn k2 al2 (Some a)) →
     type_bound c k1 → type_bound c k2 → i = j) ∧
  Forall (unshared_arguments c) (trace (Resolve' key c heap).2).
Proof.
  unfold Resolve.
  destruct (Resolve_in' _ key _) as [o s'] eqn:Hr. cbn [snd].
  pose proof Hr as Halloc. apply (Resolve_in_alloc_ok heap) in Halloc as [Hle Hc].
  2:{ split; cbn; [lia|]. by rewrite Nat.sub_diag. }
  apply (Resolve_in_unshared c) in Hr as [Hown Hun]; [|done|].
  2:{ cbn. split; [|done]. by intros n k al a T deps Hn. }
  assert (NoDup (constructed (trace s'))) as Hnd.
  { rewrite Hc. apply NoDup_seq. }
  split_and!; [done|done| |done| |done].
  - intros a. rewrite Hc. intros Ha%elem_of_seq. lia.
  - intros i j k1 k2 al1 al2 a Hi Hj (T1 & deps1 & Hk1) (T2 & deps2 & Hk2).
    destruct (Hown _ _ _ _ _ _ Hi Hk1) as (m1 & args1 & -> & Hm1 & _).
    destruct (Hown _ _ _ _ _ _ Hj Hk2) as (m2 & args2 & -> & Hm2 & _).
    f_equal. by eapply constructed_once.
Qed.

(** *** Complete graphs *)

Lemma buildable_S (c : gmap nat factory_value) (n : nat) :
  ∀ key, buildable c n key = true → buildable c (S n) key = true.
Proof.
  induction n as [|n IH]; intros key; [done|].
  cbn [buildable]. destruct (c !! key) as [[T deps|[a|]]|]; try done.
  rewrite !forallb_forall. intros Hdeps d Hd. by apply IH, Hdeps.
Qed.

Lemma Resolve_in_buildable (c : gmap nat factory_value) (n : nat) :
  valid_order arg_order →
  ∀ fuel key s o s',
    m_factoryList s = c →
    buildable c n key = true →
    (∀ a, a ∈ ancestor_list s → buildable c n a = false) →
    Resolve_in' fuel key s = (o, s') →
    (∀ p, o = Ret p → p ≠ None) ∧
    (Forall no_absent (trace s) → Forall no_absent (trace s')).
Proof.
  intros Hord. induction n as [|n IH]; intros fuel key s o s' Hc Hb Hst Hr; [done|].
  destruct (buildable c n key) eqn:Hbn.
  { eapply IH; [done|done| |done]. intros a Ha. specialize (Hst a Ha).
    destruct (buildable c n a) eqn:Hba; [|done]. apply buildable_S in Hba. congruence. }
  assert (∀ a, a ∈ ancestor_list s ++ [key] → buildable c n a = false) as Hst'.
  { intros a [Ha| ->%list_elem_of_singleton]%elem_of_app; [|done]. specialize (Hst a Ha).
    destruct (buildable c n a) eqn:Hba; [|done]. apply buildable_S in Hba. congruence. }
  assert (key ∉ ancestor_list s) as Hal.
  { intros Hin. apply Hst in Hin. congruence. }
  destruct fuel as [|fuel].
  { cbn in Hr. injection Hr as <- <-. done. }
  rewrite Resolve_in_S in Hr. cbn zeta in Hr. rewrite Hc in Hr.
  rewrite bool_decide_eq_false_2 in Hr by done.
  cbn [buildable] in Hb. destruct (c !! key) as [[T deps|[a|]]|] eqn:Hk; try done.
  - rewrite forallb_forall in Hb. setoid_rewrite <-list_elem_of_In in Hb.
    assert (∀ slots o1 s1,
      eval_arguments (Resolve_in' fuel) deps (arg_order (length deps)) slots
        (pushed key (logged (EvCall key (ancestor_list s)) s)) = (o1, s1) →
      Forall no_absent (trace s) → Forall no_absent (trace s1)) as Htrace.
    { intros slots o1 s1 Hargs Hok.
      eapply (eval_arguments_preserves_in _ _ (λ s, Forall no_absent (trace s)) c
                (ancestor_list s ++ [key]) _ (Resolve_in_post arg_order ctor fuel))
        in Hargs; [done| |by cbn|done|].
      - intros D s2 o2 s2' HD Hc2 Hst2 Hr2. eapply IH; [done|by apply Hb| |done].
        by rewrite Hst2.
      - cbn. by rewrite Forall_app, Forall_singleton. }
    unfold invoke, bind in Hr.
    destruct (eval_arguments _ _ _ _ _) as [[args|e|] s1] eqn:Hargs.
    + assert (None ∉ args) as Hargs_full.
      { intros [i Hi]%list_elem_of_lookup.
        pose proof (eval_arguments_length _ _ _ _ _ _ _ Hargs) as Hlen.
        rewrite length_replicate in Hlen.
        destruct (lookup_lt_is_Some_2 deps i) as [D HD].
        { rewrite <-Hlen. by eapply lookup_lt_Some. }
        destruct (eval_arguments_visits _ _ (Resolve_in_post arg_order ctor fuel)
                    _ _ _ _ _ i D Hargs)
          as (sd & q & sd' & Hrd & Hmd & Hstd & _ & Hq); [|done|].
        { apply valid_order_covers; [done|]. by eapply lookup_lt_Some. }
        cbn in Hmd, Hstd.
        rewrite Hq in Hi; [|by apply valid_order_NoDup|by rewrite length_replicate].
        injection Hi as ->.
        destruct (IH fuel D sd (Ret None) sd') as [Hp _]; [congruence| | |done|].
        - apply Hb. by eapply list_elem_of_lookup_2.
        - by rewrite Hstd.
        - by apply (Hp None). }
      specialize (Htrace _ _ _ Hargs).
      destruct (make_shared ctor T args s1) as [[p|e|] s2] eqn:Hmk;
        apply make_shared_post in Hmk as (_ & _ & Ho2); [| |done].
      * destruct Ho2 as (-> & _ & _ & Htr2). injection Hr as <- <-.
        split; [by intros p [= <-]|].
        intros Hok. cbn. rewrite Htr2, !Forall_app, !Forall_singleton.
        split_and!; [by apply Htrace|done|done].
      * destruct Ho2 as (_ & _ & Htr2). injection Hr as <- <-. split; [done|].
        intros Hok. rewrite Htr2, Forall_app, Forall_singleton. split; [|done].
        by apply Htrace.
    + injection Hr as <- <-. split; [done|]. by eapply Htrace.
    + injection Hr as <- <-. split; [done|]. by eapply Htrace.
  - cbn in Hr. injection Hr as <- <-. split; [by intros p [= <-]|].
    intros Hok. cbn. by rewrite !Forall_app, !Forall_singleton.
Qed.

(** X8.  When everything an interface needs is registered and free of
    cycles (it can be assembled within some number of levels out of type
    bindings and non-null instances), a resolve hands back a complete object
    graph: the result is not absent, no nested resolve came back absent, and
    no constructor was handed the absent marker.  Only a constructor's own
    exception can get in the way. *)
Theorem complete_graph_is_assembled_in_full (c : gmap nat factory_value) (n : nat)
    (key heap : nat) (o : outcome (option nat)) (s' : machine) :
  valid_order arg_order →
  buildable c n key = true →
  Resolve' key c heap = (o, s') →
  Forall no_absent (trace s') ∧
  match o with
  | Ret p => ∃ a, p = Some a
  | Throw e => thrown_by_constructor ctor e (trace s')
  | OutOfFuel => False
  end.
Proof.
  intros Hord Hb Hr.
  pose proof (Resolve_no_OutOfFuel arg_order ctor key c heap) as Hfuel. rewrite Hr in Hfuel.
  unfold Resolve in Hr.
  destruct (Resolve_in_buildable c n Hord (S (size c)) key (Machine c [] heap []) o s'
              eq_refl Hb)
    as [Hp Htr]; [|done|].
  { intros a Ha. by apply elem_of_nil in Ha. }
  split; [by apply Htr|]. destruct o as [p|e|]; [| |done].
  - destruct p as [a|]; [by exists a|]. by destruct (Hp None).
  - by eapply Resolve_in_throw.
Qed.

(** *** The ancestor list is a chain of dependencies *)

Lemma chain_app_r (c : gmap nat factory_value) (l1 l2 : list nat) :
  chain c (l1 ++ l2) → chain c l2.
Proof.
  induction l1 as [|k l1 IH]; [done|]. cbn. intros Hch. apply IH.
  inversion Hch as [| |k' d l Hdep Hrest]; subst.
  - destruct l1, l2; try done. constructor.
  - done.
Qed.

Lemma chain_snoc (c : gmap nat factory_value) (l : list nat) (k d : nat) :
  chain c (l ++ [k]) → depends_on c k d → chain c ((l ++ [k]) ++ [d]).
Proof.
  intros Hch Hdep. induction l as [|x l IH]; cbn in *.
  - apply chain_cons; [done|constructor].
  - inversion Hch as [| |k' y l' Hxy Hrest]; subst.
    + by destruct l.
    + match goal with Heq : _ :: _ = l ++ [k] |- _ =>
        rewrite <-Heq in IH; specialize (IH Hrest); cbn in IH |- *
      end.
      by apply chain_cons.
Qed.

Lemma chain_tc (c : gmap nat factory_value) (l : list nat) (g g' : nat) :
  chain c (g :: l ++ [g']) → tc (depends_on c) g g'.
Proof.
  revert g. induction l as [|x l IH]; intros g Hch; cbn in Hch.
  - inversion Hch; subst. by apply tc_once.
  - inversion Hch; subst. eapply tc_l; [done|]. by apply IH.
Qed.

Lemma Resolve_in_chained (c : gmap nat factory_value) (fuel : nat) :
  ∀ key s o s', m_factoryList s = c → chain c (ancestor_list s ++ [key]) →
    Resolve_in' fuel key s = (o, s') →
    Forall (chained c) (trace s) → Forall (chained c) (trace s').
Proof.
  induction fuel as [|fuel IH]; intros key s o s' Hc Hch.
  - cbn. by intros [= <- <-].
  - rewrite Resolve_in_S. cbn zeta. rewrite Hc.
    destruct (c !! key) as [f|] eqn:Hf.
    2:{ intros [= <- <-] Hok. cbn. by rewrite !Forall_app, !Forall_singleton. }
    destruct (bool_decide (key ∈ ancestor_list s)) eqn:Hal.
    { intros [= <- <-] Hok. cbn. by rewrite !Forall_app, !Forall_singleton. }
    destruct f as [T deps|pInstance]; unfold invoke.
    + assert (∀ slots o1 s1,
        eval_arguments (Resolve_in' fuel) deps (arg_order (length deps)) slots
          (pushed key (logged (EvCall key (ancestor_list s)) s)) = (o1, s1) →
        Forall (chained c) (trace s) → Forall (chained c) (trace s1)) as Hargs_ok.
      { intros slots o1 s1 Hargs Hok.
        eapply (eval_arguments_preserves_in _ _ (λ s, Forall (chained c) (trace s)) c
                  (ancestor_list s ++ [key]) _ (Resolve_in_post arg_order ctor fuel))
          in Hargs; [done| |by cbn|done|].
        - intros D s2 o2 s2' HD Hc2 Hst2. apply IH; [done|].
          rewrite Hst2. apply chain_snoc; [done|]. by exists T, deps.
        - cbn. by rewrite Forall_app, Forall_singleton. }
      unfold bind.
      destruct (eval_arguments _ _ _ _ _) as [[args|e|] s1] eqn:Hargs.
      * intros Hr Hok.
        pose proof (eval_arguments_post _ _ (Resolve_in_post arg_order ctor fuel)
                      _ _ _ _ _ Hargs) as (_ & _ & _ & Hst1). cbn in Hst1.
        apply Hargs_ok in Hargs; [|done].
        destruct (make_shared ctor T args s1) as [[p|e|] s2] eqn:Hmk;
          apply make_shared_post in Hmk as (_ & Hst2 & Ho2); [| |done].
        -- destruct Ho2 as (_ & _ & _ & Htr2). injection Hr as <- <-. cbn.
           rewrite Hst2, Hst1, removelast_last, Htr2, !Forall_app, !Forall_singleton.
           done.
        -- destruct Ho2 as (_ & _ & Htr2). injection Hr as <- <-.
           by rewrite Htr2, Forall_app, Forall_singleton.
      * intros [= <- <-] Hok. by eapply Hargs_ok.
      * intros [= <- <-] Hok. by eapply Hargs_ok.
    + cbn. intros [= <- <-] Hok. cbn.
      by rewrite removelast_last, !Forall_app, !Forall_singleton.
Qed.

(** X9.  The cycle guard has no false alarms.  Whenever a resolve finds the
    interface it is asked for on the ancestor list, that interface really
    lies on a dependency cycle of type bindings; in a registry without
    cycles the guard never fires, and the ancestor list at every call is a
    chain of declared dependencies leading to the interface asked for. *)
Theorem guard_fires_only_on_cycles (key : nat) (c : gmap nat factory_value) (heap : nat) :
  Forall (chained c) (trace (Resolve' key c heap).2) ∧
  (∀ g al p, EvReturn g al p ∈ trace (Resolve' key c heap).2 → g ∈ al →
     on_cycle c g ∧ p = None) ∧
  ((∀ g, ¬ on_cycle c g) → ¬ guard_fired c (trace (Resolve' key c heap).2)).
Proof.
  set (tr := trace (Resolve' key c heap).2).
  assert (Forall (chained c) tr) as Hch.
  { subst tr. unfold Resolve. destruct (Resolve_in' _ key _) as [o s'] eqn:Hr. cbn.
    eapply Resolve_in_chained in Hr; [done|done| |done]. cbn. constructor. }
  assert (∀ g al p, EvReturn g al p ∈ tr → g ∈ al → on_cycle c g ∧ p = None) as Hcyc.
  { intros g al p Hev Hin. split.
    - rewrite Forall_forall in Hch. apply Hch in Hev. cbn in Hev.
      apply list_elem_of_split in Hin as (l1 & l2 & ->).
      rewrite <-(assoc_L (++)) in Hev. apply chain_app_r in Hev.
      by apply chain_tc in Hev.
    - pose proof (Resolve_events_ok arg_order ctor key c heap) as Hok.
      rewrite Forall_forall in Hok. apply Hok in Hev.
      by inversion Hev; subst. }
  split_and!; [done|done|].
  intros Hacyclic (g & al & T & deps & Hin & _ & Hev).
  destruct (Hcyc g al None Hev Hin) as [Hg _]. by apply (Hacyclic g).
Qed.


(** *** Only what an interface depends on matters *)

Lemma same_run_logged (ev : event) (s1 s2 : machine) :
  same_run s1 s2 → same_run (logged ev s1) (logged ev s2).
Proof. intros (Hst & Hh & Htr). split_and!; cbn; congruence. Qed.

Lemma make_shared_agree (T : nat) (args : list (option nat)) (s1 s2 : machine)
    (o : outcome (option nat)) (s1' : machine) :
  same_run s1 s2 → make_shared ctor T args s1 = (o, s1') →
  ∃ s2', make_shared ctor T args s2 = (o, s2') ∧ same_run s1' s2'.
Proof.
  intros (Hst & Hh & Htr). unfold make_shared.
  destruct (ctor T args) as [e|]; intros [= <- <-]; eexists; (split; [by rewrite ?Hh|]);
    split_and!; cbn; congruence.
Qed.

Lemma eval_arguments_agree (resolve1 resolve2 : nat → M (option nat))
    (Arguments idxs : list nat) (R : machine → machine → Prop) :
  (∀ D s1 s2 o s1', D ∈ Arguments → R s1 s2 → resolve1 D s1 = (o, s1') →
     ∃ s2', resolve2 D s2 = (o, s2') ∧ R s1' s2') →
  ∀ slots s1 s2 o s1', R s1 s2 →
    eval_arguments resolve1 Arguments idxs slots s1 = (o, s1') →
    ∃ s2', eval_arguments resolve2 Arguments idxs slots s2 = (o, s2') ∧ R s1' s2'.
Proof.
  intros Hres. induction idxs as [|i idxs IH]; intros slots s1 s2 o s1' HR; cbn.
  - intros [= <- <-]. by exists s2.
  - destruct (Arguments !! i) as [D|] eqn:HD; [|by apply IH].
    apply list_elem_of_lookup_2 in HD.
    unfold bind. destruct (resolve1 D s1) as [[p|e|] s1a] eqn:Hr1;
      destruct (Hres _ _ _ _ _ HD HR Hr1) as (s2a & -> & HR').
    + by apply IH.
    + intros [= <- <-]. by exists s2a.
    + intros [= <- <-]. by exists s2a.
Qed.

(** Two registries that agree on everything [key] depends on, directly or
    through other interfaces, resolve [key] alike. *)
Lemma Resolve_in_agree (c1 c2 : gmap nat factory_value) (fuel : nat) :
  ∀ key s1 s2 o s1',
    m_factoryList s1 = c1 → m_factoryList s2 = c2 → same_run s1 s2 →
    (∀ k, rtc (depends_on c1) key k → c1 !! k = c2 !! k) →
    Resolve_in' fuel key s1 = (o, s1') →
    ∃ s2', Resolve_in' fuel key s2 = (o, s2') ∧ same_run s1' s2'.
Proof.
  induction fuel as [|fuel IH]; intros key s1 s2 o s1' Hc1 Hc2 Hsame Hagree.
  - cbn. intros [= <- <-]. by exists s2.
  - rewrite !Resolve_in_S. cbn zeta. rewrite Hc1, Hc2, <-(Hagree key) by done.
    pose proof Hsame as (Hst & Hh & Htr). rewrite <-Hst.
    destruct (c1 !! key) as [f|] eqn:Hf.
    2:{ intros [= <- <-]. eexists. split; [done|].
        apply same_run_logged. by apply same_run_logged. }
    destruct (bool_decide (key ∈ ancestor_list s1)) eqn:Hal.
    { intros [= <- <-]. eexists. split; [done|].
      apply same_run_logged. by apply same_run_logged. }
    destruct f as [T deps|pInstance]; unfold invoke.
    + pose (R := λ t1 t2 : machine,
                   m_factoryList t1 = c1 ∧ m_factoryList t2 = c2 ∧ same_run t1 t2).
      assert (R (pushed key (logged (EvCall key (ancestor_list s1)) s1))
                (pushed key (logged (EvCall key (ancestor_list s1)) s2))) as HR0.
      { split_and!; [done|done|]. split_and!; cbn; congruence. }
      assert (∀ D t1 t2 o1 t1', D ∈ deps → R t1 t2 →
                Resolve_in' fuel D t1 = (o1, t1') →
                ∃ t2', Resolve_in' fuel D t2 = (o1, t2') ∧ R t1' t2') as Hres.
      { intros D t1 t2 o1 t1' HD (Ht1 & Ht2 & Hts) Hr1.
        destruct (IH D t1 t2 o1 t1' Ht1 Ht2 Hts) as (t2' & Hr2 & Hts'); [|done|].
        - intros k Hk. apply Hagree. eapply rtc_l; [|exact Hk]. by exists T, deps.
        - exists t2'. split; [done|]. split_and!; [| |done].
          + apply Resolve_in_post in Hr1 as (-> & _). done.
          + apply Resolve_in_post in Hr2 as (-> & _). done. }
      unfold bind.
      destruct (eval_arguments _ _ _ _ (pushed key (logged _ s1)))
        as [[args|e|] s1a] eqn:Hargs;
        destruct (eval_arguments_agree _ _ _ _ R Hres _ _ _ _ _ HR0 Hargs)
          as (s2a & -> & _ & _ & Hsame1).
      * destruct (make_shared ctor T args s1a) as [[p|e|] s1b] eqn:Hmk;
          destruct (make_shared_agree _ _ _ _ _ _ Hsame1 Hmk) as (s2b & -> & Hsame2);
          intros [= <- <-]; eexists; (split; [done|]); [|done|done].
        destruct Hsame2 as (Hst2 & Hh2 & Htr2). split_and!; cbn; congruence.
      * intros [= <- <-]. by exists s2a.
      * intros [= <- <-]. by exists s2a.
    + cbn. intros [= <- <-]. eexists. split; [done|].
      split_and!; cbn; congruence.
Qed.

(** X10.  What a resolve does depends only on the part of the registry that
    the interface reaches through declared dependencies.  Registering or
    unregistering an interface that [key] does not depend on, directly or
    through other interfaces, changes neither the outcome of resolving [key]
    nor anything that happens on the way. *)
Theorem unrelated_calls_do_not_matter (c : gmap nat factory_value) (key other heap : nat)
    (f : factory_value) :
  ¬ rtc (depends_on c) key other →
  (Resolve' key (RegisterFactory other f c) heap).1 = (Resolve' key c heap).1 ∧
  same_run (Resolve' key (RegisterFactory other f c) heap).2 (Resolve' key c heap).2 ∧
  (Resolve' key (Unregister other c) heap).1 = (Resolve' key c heap).1 ∧
  same_run (Resolve' key (Unregister other c) heap).2 (Resolve' key c heap).2.
Proof.
  intros Hfar.
  assert (∀ c2, (∀ k, rtc (depends_on c) key k → c !! k = c2 !! k) →
            (Resolve' key c2 heap).1 = (Resolve' key c heap).1 ∧
            same_run (Resolve' key c2 heap).2 (Resolve' key c heap).2) as Hgen.
  { intros c2 Hagree.
    pose proof (Resolve_no_OutOfFuel arg_order ctor key c heap) as Hf1.
    pose proof (Resolve_no_OutOfFuel arg_order ctor key c2 heap) as Hf2.
    unfold Resolve in *.
    destruct (Resolve_in' (S (size c)) key _) as [o1 s1'] eqn:Hr1.
    destruct (Resolve_in' (S (size c2)) key _) as [o2 s2'] eqn:Hr2. cbn [fst snd] in *.
    apply (Resolve_in_more_fuel _ _ _ (S (size c) + S (size c2))) in Hr1; [|done|lia].
    apply (Resolve_in_more_fuel _ _ _ (S (size c) + S (size c2))) in Hr2; [|done|lia].
    destruct (Resolve_in_agree c c2 _ key (Machine c [] heap []) (Machine c2 [] heap [])
                _ _ eq_refl eq_refl ltac:(done) Hagree Hr1) as (s2'' & Hr2' & Hsame).
    rewrite Hr2 in Hr2'. injection Hr2' as -> ->.
    destruct Hsame as (? & ? & ?). split; [done|]. split_and!; congruence. }
  assert (∀ k, rtc (depends_on c) key k → k ≠ other) as Hne.
  { intros k Hk ->. done. }
  destruct (Hgen (RegisterFactory other f c)) as [? ?].
  { intros k Hk. rewrite RegisterFactory_lookup, decide_False; [done|].
    intros ->. by apply (Hne k). }
  destruct (Hgen (Unregister other c)) as [? ?].
  { intros k Hk. rewrite Unregister_lookup, decide_False; [done|].
    intros ->. by apply (Hne k). }
  done.
Qed.

End FurtherResolverFacts.

(** ** Further properties on concrete containers *)

(** Registering [IA] and unregistering [IB] in either order. *)
Lemma calls_on_different_interfaces_commute_witness :
  IA ≠ IB ∧
  (RegisterFactory IA (type_factory TA []) (RegisterFactory IB (type_factory TB []) leaf)
     = RegisterFactory IB (type_factory TB []) (RegisterFactory IA (type_factory TA []) leaf) ∧
   RegisterFactory IA (type_factory TA []) (Unregister IB leaf)
     = Unregister IB (RegisterFactory IA (type_factory TA []) leaf) ∧
   Unregister IA (Unregister IB leaf) = Unregister IB (Unregister IA leaf)).
Proof.
  assert (IA ≠ IB) as Hne by (unfold IA, IB; lia).
  split; [exact Hne|].
  apply (calls_on_different_interfaces_commute IA IB (type_factory TA [])
           (type_factory TB []) leaf Hne).
Defined.

(** The direct cycle: the top-level result is not absent, and [IA] is
    registered. *)
Lemma Resolve_absent_iff_witness :
  Resolve left_to_right ctor_nothrow IA self_cycle 0
    = (Ret (Some 0), (Resolve left_to_right ctor_nothrow IA self_cycle 0).2) ∧
  (Some 0 = None
     ↔ self_cycle !! IA = None ∨ self_cycle !! IA = Some (instance_factory None)).
Proof.
  split; [reflexivity|].
  apply (Resolve_absent_iff left_to_right ctor_nothrow IA self_cycle 0 (Some 0)
           (Resolve left_to_right ctor_nothrow IA self_cycle 0).2).
  reflexivity.
Defined.

(** A [TA] on a shared instance is a complete graph of two levels. *)
Lemma complete_graph_is_assembled_in_full_witness :
  valid_order left_to_right ∧
  buildable shared_dep 2 IA = true ∧
  Resolve left_to_right ctor_nothrow IA shared_dep 0
    = (Ret (Some 0), (Resolve left_to_right ctor_nothrow IA shared_dep 0).2) ∧
  (Forall no_absent (trace (Resolve left_to_right ctor_nothrow IA shared_dep 0).2) ∧
   ∃ a, Some 0 = Some a).
Proof.
  split; [exact left_to_right_valid|]. split; [reflexivity|]. split; [reflexivity|].
  apply (complete_graph_is_assembled_in_full left_to_right ctor_nothrow shared_dep 2 IA 0
           (Ret (Some 0)) (Resolve left_to_right ctor_nothrow IA shared_dep 0).2
           left_to_right_valid).
  - reflexivity.
  - reflexivity.
Defined.

(** [IA] without dependencies does not depend on [IB]: registering or
    unregistering [IB] leaves the resolve of [IA] alone. *)
Lemma unrelated_calls_do_not_matter_witness :
  ¬ rtc (depends_on leaf) IA IB ∧
  ((Resolve left_to_right ctor_nothrow IA
      (RegisterFactory IB (type_factory TB []) leaf) 0).1
     = (Resolve left_to_right ctor_nothrow IA leaf 0).1 ∧
   same_run
     (Resolve left_to_right ctor_nothrow IA
        (RegisterFactory IB (type_factory TB []) leaf) 0).2
     (Resolve left_to_right ctor_nothrow IA leaf 0).2 ∧
   (Resolve left_to_right ctor_nothrow IA (Unregister IB leaf) 0).1
     = (Resolve left_to_right ctor_nothrow IA leaf 0).1 ∧
   same_run
     (Resolve left_to_right ctor_nothrow IA (Unregister IB leaf) 0).2
     (Resolve left_to_right ctor_nothrow IA leaf 0).2).
Proof.
  assert (¬ rtc (depends_on leaf) IA IB) as Hfar.
  { intros Hpath. inversion Hpath as [|x d z (T & deps & Hk & Hd)]; subst.
    vm_compute in Hk. injection Hk as <- <-. by apply elem_of_nil in Hd. }
  split; [exact Hfar|].
  apply (unrelated_calls_do_not_matter left_to_right ctor_nothrow leaf IA IB 0
           (type_factory TB []) Hfar).
Defined.

(** A [TA] that takes two [IB] gets two different [TB]. *)
Example two_dependents_two_objects :
  Resolve left_to_right ctor_nothrow IA twice 0
    = (Ret (Some 2),
       Machine twice [] 3
         [EvCall IA [];
          EvCall IB [IA]; EvConstruct TB [] (inr 0); EvReturn IB [IA] (Some 0);
          EvCall IB [IA]; EvConstruct TB [] (inr 1); EvReturn IB [IA] (Some 1);
          EvConstruct TA [Some 0; Some 1] (inr 2); EvReturn IA [] (Some 2)]).
Proof. reflexivity. Qed.
